(** * Voice-activity detection of [VoiceConnectionHandler]

    A shallow embedding of [src/api/discord/voiceConnection.ts]: the level
    meter [calculateAudioLevel], the hysteresis state machine
    [processAudioLevel] with its [setTimeout]-debounced [handleSpeechEnd],
    and the teardown paths ([disconnect], the [Destroyed] handler, the
    stream's ['end'] handler).

    Conventions.
    - A JavaScript [number] is modelled by [number]: the IEEE special values
      [NaN], [-Infinity], [+Infinity] are kept, with the special cases of
      every operation written out; finite values are real numbers, so
      rounding, overflow and the sign of zero are not modelled.  Statements
      that rounding could break are made for fewer than 2^23 samples, where
      the sum of the squares is exact, and away from the thresholds.
    - A chunk is a view of an [ArrayBuffer] ([Chunk.t]): the meter reads the
      whole [ArrayBuffer], and a frame is the whole of it only for the
      chunks that are [Chunk.whole].
    - [step] is one listener call; [receive] is one emission of the
      connection or of a stream, which calls every listener attached.
    - The fields of [this] are the record [handler]; the pending [setTimeout]
      callbacks of the event loop, the clock and the sequence of [emit] calls
      are the record [world].  Every method is a function on [world].
    - [logger] calls have no effect on the modelled state and are left out. *)

From Stdlib Require Import Reals Lra Lia ZArith List Bool Arith.
From Stdlib Require Import Strings.Byte Strings.String.
Import ListNotations.

(** ** JavaScript numbers *)

Module JS.

Local Open Scope R_scope.

Inductive number : Type :=
| NaN
| NegInf
| PosInf
| Fin (r : R).

Definition of_Z (z : Z) : number := Fin (IZR z).

(** [a / b].  Zero divisors are the positive zero. *)
Definition div (a b : number) : number :=
  match a, b with
  | NaN, _ | _, NaN => NaN
  | Fin x, Fin y =>
      if Req_dec_T y 0
      then if Req_dec_T x 0 then NaN
           else if Rlt_dec 0 x then PosInf else NegInf
      else Fin (x / y)
  | Fin _, (PosInf | NegInf) => Fin 0
  | PosInf, Fin y => if Rlt_dec y 0 then NegInf else PosInf
  | NegInf, Fin y => if Rlt_dec y 0 then PosInf else NegInf
  | (PosInf | NegInf), (PosInf | NegInf) => NaN
  end.

(** [a * b]. *)
Definition mul (a b : number) : number :=
  match a, b with
  | NaN, _ | _, NaN => NaN
  | Fin x, Fin y => Fin (x * y)
  | Fin x, PosInf | PosInf, Fin x =>
      if Req_dec_T x 0 then NaN else if Rlt_dec 0 x then PosInf else NegInf
  | Fin x, NegInf | NegInf, Fin x =>
      if Req_dec_T x 0 then NaN else if Rlt_dec 0 x then NegInf else PosInf
  | PosInf, PosInf | NegInf, NegInf => PosInf
  | PosInf, NegInf | NegInf, PosInf => NaN
  end.

(** [Math.sqrt]. *)
Definition Math_sqrt (a : number) : number :=
  match a with
  | NaN | NegInf => NaN
  | PosInf => PosInf
  | Fin x => if Rlt_dec x 0 then NaN else Fin (sqrt x)
  end.

(** [Math.log10]: NaN below zero, [-Infinity] at zero. *)
Definition Math_log10 (a : number) : number :=
  match a with
  | NaN | NegInf => NaN
  | PosInf => PosInf
  | Fin x =>
      if Rlt_dec x 0 then NaN
      else if Req_dec_T x 0 then NegInf
      else Fin (ln x / ln 10)
  end.

(** [a > b]: false as soon as one side is NaN. *)
Definition gt (a b : number) : bool :=
  match a, b with
  | NaN, _ | _, NaN => false
  | PosInf, PosInf => false
  | PosInf, _ => true
  | _, PosInf => false
  | NegInf, _ => false
  | Fin _, NegInf => true
  | Fin x, Fin y => if Rlt_dec y x then true else false
  end.

(** [a >= b]. *)
Definition ge (a b : number) : bool :=
  match a, b with
  | NaN, _ | _, NaN => false
  | PosInf, _ => true
  | _, NegInf => true
  | NegInf, _ => false
  | Fin _, PosInf => false
  | Fin x, Fin y => if Rle_dec y x then true else false
  end.

(** [typeof a === 'number'] holds of every value of the type, NaN included;
    a decibel level is a value that is not NaN. *)
Definition isNaN (a : number) : bool :=
  match a with NaN => true | _ => false end.

End JS.

Export JS(number, NaN, NegInf, PosInf, Fin).

(** ** Results of calls that can throw *)

Inductive error : Type :=
| RangeError.

Inductive result (A : Type) : Type :=
| Ret (a : A)
| Throw (e : error).

Arguments Ret {A} a.
Arguments Throw {A} e.

(** ** The level meter *)

Section Meter.

Local Open Scope Z_scope.

(** One element of an [Int16Array] over little-endian bytes: the 16-bit
    pattern [hi:lo] read as two's complement. *)
Definition int16 (lo hi : byte) : Z :=
  let u := Z.lor (Z.of_N (Byte.to_N lo)) (Z.shiftl (Z.of_N (Byte.to_N hi)) 8) in
  if u <? 32768 then u else u - 65536.

(** [new Int16Array(buffer)]: a view of the whole [ArrayBuffer], which
    throws a [RangeError] when the byte length is not a multiple of 2. *)
Fixpoint Int16Array (buffer : list byte) : result (list Z) :=
  match buffer with
  | [] => Ret []
  | [_] => Throw RangeError
  | lo :: hi :: rest =>
      match Int16Array rest with
      | Ret samples => Ret (int16 lo hi :: samples)
      | Throw e => Throw e
      end
  end.

(** The loop [for (i...) sum += samples[i] * samples[i]], from [sum = 0].
    Squares of 16-bit samples are at most 2^30, so the sum is an exact
    integer in a double for every frame of fewer than 2^23 samples. *)
Definition sum_squares (samples : list Z) : Z :=
  fold_left (fun sum s => sum + s * s) samples 0.

(** The body of [calculateAudioLevel] after the view is made, in exact
    arithmetic. *)
Definition level_of_samples (samples : list Z) : number :=
  let sum := sum_squares samples in
  let rms :=
    JS.Math_sqrt (JS.div (JS.of_Z sum) (JS.of_Z (Z.of_nat (List.length samples)))) in
  JS.mul (Fin 20) (JS.Math_log10 (JS.div rms (Fin 32768))).

(** [calculateAudioLevel(chunk)], applied to the bytes of [chunk.buffer]:
    its argument here is the content of the [ArrayBuffer] behind the chunk,
    which is all the function reads.  The chunk with its offset and length
    is [Chunk.calculateAudioLevel] below. *)
Definition calculateAudioLevel (chunk : list byte) : result number :=
  match Int16Array chunk with
  | Ret samples => Ret (level_of_samples samples)
  | Throw e => Throw e
  end.

End Meter.

(** ** The handler and its environment *)

Definition Timeout := nat.
Definition VoiceConnection := nat.
Definition userId := string.

Inductive event : Type :=
| realSpeechStart
| realSpeechEnd.

(** The mutable fields of [VoiceConnectionHandler].  [audioLevel] is never
    read or written after its initialisation and [interaction] is only used
    for replies; both are left out. *)
Record handler : Type := mkHandler {
  isSpeaking : bool;
  silenceTimer : option Timeout;
  consecutiveNoiseFrames : nat;
  currentConnection : option VoiceConnection
}.

(** The handler together with what its methods act on outside of it:
    [timers] are the pending [setTimeout] callbacks (handle and due time, in
    milliseconds; the callback of each one is [handleSpeechEnd], the only one
    the class ever schedules), [clock] the current time, [fresh] the next
    unused handle, [emitted] the arguments of the calls of [emit], oldest
    first, and [voiceConnection] what [getVoiceConnection(guildId)]
    returns. *)
Record world : Type := mkWorld {
  this : handler;
  timers : list (Timeout * nat);
  clock : nat;
  fresh : Timeout;
  emitted : list event;
  voiceConnection : option VoiceConnection
}.

Definition SILENCE_THRESHOLD : nat := 500.
Definition NOISE_THRESHOLD : number := Fin (-50).
Definition SPEECH_THRESHOLD : number := Fin (-35).
Definition REQUIRED_NOISE_FRAMES : nat := 3.

Definition set_this (h : handler) (w : world) : world :=
  mkWorld h (timers w) (clock w) (fresh w) (emitted w) (voiceConnection w).

Definition set_isSpeaking (b : bool) (w : world) : world :=
  set_this (mkHandler b (silenceTimer (this w))
              (consecutiveNoiseFrames (this w)) (currentConnection (this w))) w.

Definition set_silenceTimer (t : option Timeout) (w : world) : world :=
  set_this (mkHandler (isSpeaking (this w)) t
              (consecutiveNoiseFrames (this w)) (currentConnection (this w))) w.

Definition set_consecutiveNoiseFrames (n : nat) (w : world) : world :=
  set_this (mkHandler (isSpeaking (this w)) (silenceTimer (this w))
              n (currentConnection (this w))) w.

Definition set_currentConnection (c : option VoiceConnection) (w : world)
  : world :=
  set_this (mkHandler (isSpeaking (this w)) (silenceTimer (this w))
              (consecutiveNoiseFrames (this w)) c) w.

(** [setTimeout(() => this.handleSpeechEnd(), delay)]. *)
Definition setTimeout (delay : nat) (w : world) : Timeout * world :=
  (fresh w,
   mkWorld (this w) (timers w ++ [(fresh w, clock w + delay)]) (clock w)
     (S (fresh w)) (emitted w) (voiceConnection w)).

(** [clearTimeout(t)]. *)
Definition clearTimeout (t : Timeout) (w : world) : world :=
  mkWorld (this w) (filter (fun p => negb (fst p =? t)) (timers w)) (clock w)
    (fresh w) (emitted w) (voiceConnection w).

Definition emit (e : event) (w : world) : world :=
  mkWorld (this w) (timers w) (clock w) (fresh w) (emitted w ++ [e])
    (voiceConnection w).

Definition handleSpeechStart (w : world) : world :=
  emit realSpeechStart (set_isSpeaking true w).

Definition handleSpeechEnd (w : world) : world :=
  emit realSpeechEnd
    (set_silenceTimer None
       (set_consecutiveNoiseFrames 0 (set_isSpeaking false w))).

Definition processAudioLevel (audioLevel : number) (w : world) : world :=
  if JS.gt audioLevel NOISE_THRESHOLD then
    let w1 :=
      set_consecutiveNoiseFrames (S (consecutiveNoiseFrames (this w))) w in
    if JS.gt audioLevel SPEECH_THRESHOLD
       && (REQUIRED_NOISE_FRAMES <=? consecutiveNoiseFrames (this w1))
    then
      let w2 := if negb (isSpeaking (this w1))
                then handleSpeechStart w1 else w1 in
      match silenceTimer (this w2) with
      | Some t => set_silenceTimer None (clearTimeout t w2)
      | None => w2
      end
    else w1
  else
    let w1 := set_consecutiveNoiseFrames 0 w in
    match isSpeaking (this w1), silenceTimer (this w1) with
    | true, None =>
        let (t, w2) := setTimeout SILENCE_THRESHOLD w1 in
        set_silenceTimer (Some t) w2
    | _, _ => w1
    end.

Definition isCurrentlySpeaking (w : world) : bool := isSpeaking (this w).

(** One call of the ['data'] listener of [handleAudioStream], with a chunk
    whose [ArrayBuffer] holds [chunk].  An exception of
    [calculateAudioLevel] leaves the listener before [processAudioLevel]
    runs. *)
Definition onData (chunk : list byte) (w : world) : result world :=
  match calculateAudioLevel chunk with
  | Ret audioLevel => Ret (processAudioLevel audioLevel w)
  | Throw e => Throw e
  end.

(** The [Destroyed] listener of [setupConnectionHandlers]. *)
Definition onDestroyed (w : world) : world :=
  set_currentConnection None w.

(** [connection.destroy()]: the connection leaves the registry and its
    [Destroyed] listeners run. *)
Definition destroy (w : world) : world :=
  onDestroyed
    (mkWorld (this w) (timers w) (clock w) (fresh w) (emitted w) None).

(** [disconnect()]. *)
Definition disconnect (w : world) : bool * world :=
  match voiceConnection w with
  | None => (false, w)
  | Some _ => (true, set_currentConnection None (destroy w))
  end.

(** The expiry of the timer [t]: its callback runs once, when the timer is
    still pending and due. *)
Definition timer_due (t : Timeout) (w : world) : bool :=
  existsb (fun p => (fst p =? t) && (snd p <=? clock w)) (timers w).

Definition onTimeout (t : Timeout) (w : world) : world :=
  if timer_due t w then handleSpeechEnd (clearTimeout t w) else w.

(** What the event loop runs on the handler, one listener call at a time:
    [stream_data u content] is one ['data'] listener called with a chunk of
    [u]'s stream whose [ArrayBuffer] holds [content], and [speaking_start]
    is the log of [handleAudioStart].  The listeners that the second
    ['start'] listener attaches, and how many calls a chunk leads to, are in
    [receive] below. *)
Inductive input : Type :=
| speaking_start (u : userId)
| speaking_end (u : userId)
| stream_data (u : userId) (chunk : list byte)
| stream_end (u : userId)
| connection_destroyed
| call_disconnect
| elapse (ms : nat)
| timer_fires (t : Timeout).

Definition step (w : world) (i : input) : world :=
  match i with
  | speaking_start _ | speaking_end _ | stream_end _ => w
  | stream_data _ chunk =>
      match onData chunk w with
      | Ret w' => w'
      | Throw _ => w
      end
  | connection_destroyed => destroy w
  | call_disconnect => snd (disconnect w)
  | elapse ms =>
      mkWorld (this w) (timers w) (clock w + ms) (fresh w) (emitted w)
        (voiceConnection w)
  | timer_fires t => onTimeout t w
  end.

Definition run (w : world) (inputs : list input) : world :=
  fold_left step inputs w.

(** The world once [connect] has returned the connection [c]. *)
Definition initial (c : VoiceConnection) : world :=
  mkWorld (mkHandler false None 0 (Some c)) [] 0 0 [] (Some c).

(** ** Vocabulary of the properties *)

Definition other (e : event) : event :=
  match e with
  | realSpeechStart => realSpeechEnd
  | realSpeechEnd => realSpeechStart
  end.

Definition event_eqb (a b : event) : bool :=
  match a, b with
  | realSpeechStart, realSpeechStart | realSpeechEnd, realSpeechEnd => true
  | _, _ => false
  end.

(** [alternates e log]: [log] is [e], then [other e], then [e], ... *)
Fixpoint alternates (expect : event) (log : list event) : bool :=
  match log with
  | [] => true
  | e :: rest => event_eqb e expect && alternates (other expect) rest
  end.

Definition count (e : event) (log : list event) : nat :=
  List.length (filter (event_eqb e) log).

(** The handle stored in [silenceTimer] is the one pending timer, and it is
    stored only while speaking. *)
Definition timer_inv (w : world) : Prop :=
  match silenceTimer (this w) with
  | Some t => isSpeaking (this w) = true /\ exists due, timers w = [(t, due)]
  | None => timers w = []
  end.

(** The events alternate from [realSpeechStart], and the handler is
    speaking exactly when the last one is a [realSpeechStart]. *)
Definition log_inv (w : world) : Prop :=
  alternates realSpeechStart (emitted w) = true
  /\ isSpeaking (this w) = Nat.odd (List.length (emitted w)).

Definition inv (w : world) : Prop := timer_inv w /\ log_inv w.

Definition reachable (w : world) : Prop :=
  exists c inputs, w = run (initial c) inputs.

(** A world in which the handler is speaking and a silence countdown
    started at time 0 is pending. *)
Definition speaking_with_countdown : world :=
  mkWorld (mkHandler true (Some 0) 0 (Some 0)) [(0, 500)] 0 1
    [realSpeechStart] (Some 0).

(** The world after three frames of the given levels, from the initial
    one. *)
Definition after_three (c : VoiceConnection) (l1 l2 l3 : number) : world :=
  processAudioLevel l3 (processAudioLevel l2 (processAudioLevel l1 (initial c))).

(** One sample of value -32768 (full scale), and one sample of value 0. *)
Definition loud_chunk : list byte := [x00; x80].
Definition silent_chunk : list byte := [x00; x00].

Definition is_frame (i : input) : bool :=
  match i with
  | stream_data _ _ => true
  | _ => false
  end.

(** The handler speaking, the countdown pending, and two frames above the
    noise floor since the frame that started it. *)
Definition countdown_two_frames_in : world :=
  mkWorld (mkHandler true (Some 0) 2 (Some 0)) [(0, 500)] 0 1
    [realSpeechStart] (Some 0).

(** The handler speaking after three loud frames, no countdown pending. *)
Definition speaking_no_countdown : world :=
  mkWorld (mkHandler true None 3 (Some 0)) [] 0 0 [realSpeechStart] (Some 0).

(** The sum of the absolute values of the samples. *)
Definition sum_abs (samples : list Z) : Z :=
  fold_left (fun sum s => sum + Z.abs s)%Z samples 0%Z.

(** [mean_abs_le a b]: the mean absolute sample of [a] is at most that of
    [b], for non-empty [a] and [b] (the two quotients, cross-multiplied). *)
Definition mean_abs_le (a b : list Z) : Prop :=
  (sum_abs a * Z.of_nat (List.length b)
   <= sum_abs b * Z.of_nat (List.length a))%Z.

(** [mean_square_le a b]: the same for the mean of the squared samples. *)
Definition mean_square_le (a b : list Z) : Prop :=
  (sum_squares a * Z.of_nat (List.length b)
   <= sum_squares b * Z.of_nat (List.length a))%Z.

(** Samples [3; 3] and samples [0; 5]. *)
Definition steady_chunk : list byte := [x03; x00; x03; x00].
Definition spiky_chunk : list byte := [x00; x00; x05; x00].


(** The input is not a frame above the noise floor. *)
Definition quiet_input (i : input) : bool :=
  match i with
  | stream_data _ chunk =>
      match calculateAudioLevel chunk with
      | Ret l => negb (JS.gt l NOISE_THRESHOLD)
      | Throw _ => true
      end
  | _ => true
  end.


(** The inputs that tear a source or the connection down: the end of a
    stream, the [Destroyed] status, a call of [disconnect]. *)
Definition teardown (i : input) : bool :=
  match i with
  | stream_end _ | connection_destroyed | call_disconnect => true
  | _ => false
  end.

(** ** Vocabulary of the further properties *)

(** The range of a 16-bit two's complement sample. *)
Definition int16_range (z : Z) : Prop := (-32768 <= z <= 32767)%Z.

(** The two threshold tests on a frame, in integers: the mean square of the
    samples against [32768^2 * 10^(-5)] (-50 dB), and its square against
    [32768^4 * 10^(-7)] (-35 dB). *)
Definition above_noise (samples : list Z) : bool :=
  (2 ^ 30 * Z.of_nat (List.length samples) <? 10 ^ 5 * sum_squares samples)%Z.

Definition above_speech (samples : list Z) : bool :=
  (2 ^ 60 * Z.of_nat (List.length samples) ^ 2
   <? 10 ^ 7 * sum_squares samples ^ 2)%Z.

(** The handler after the frames of the given levels, in order. *)
Definition frames (levels : list number) (w : world) : world :=
  fold_left (fun w' l => processAudioLevel l w') levels w.

(** The input is neither a frame above the noise floor nor the expiry of a
    timer. *)
Definition waiting_input (i : input) : bool :=
  quiet_input i && match i with timer_fires _ => false | _ => true end.

(** ** Connecting

    [connect] and the listeners of [setupConnectionHandlers] that do not
    appear in [step].  The calls [connect] awaits are taken to complete
    without another listener of the handler running in between; what they
    do is given by an [environment]. *)

(** The embeds [connect] and [isUserInVoiceChannel] reply with: the errors
    'You need to be in a voice channel to use this command.', 'Bot is
    already in a voice channel.' and 'An error occurred while connecting to
    the voice channel.', and the success 'Connected'. *)
Inductive reply : Type :=
| reply_not_in_channel
| reply_already_connected
| reply_connected
| reply_connect_error.

(** What the platform does during one call of [connect]: [member_channel]
    is the voice channel of [interaction.member] when it is a [GuildMember]
    in one; [joined] is the connection [joinVoiceChannel] returns, which the
    guild's registry holds from then on; [becomes_ready] tells whether
    [entersState(connection, Ready, 20_000)] resolves; [reply_resolves r]
    tells whether [interaction.reply] with the embed [r] resolves. *)
Record environment : Type := mkEnvironment {
  member_channel : option nat;
  joined : VoiceConnection;
  becomes_ready : bool;
  reply_resolves : reply -> bool
}.

(** The world and the calls of [interaction.reply] made so far, oldest
    first, resolved or not. *)
Record session : Type := mkSession {
  state : world;
  replies : list reply
}.

(** How the promise of [connect] settles. *)
Inductive outcome : Type :=
| resolved (connection : option VoiceConnection)
| rejected.

Definition say (r : reply) (s : session) : session :=
  mkSession (state s) (replies s ++ [r]).

Definition set_voiceConnection (c : option VoiceConnection) (w : world)
  : world :=
  mkWorld (this w) (timers w) (clock w) (fresh w) (emitted w) c.

(** [isUserInVoiceChannel()]; its reply is not awaited. *)
Definition isUserInVoiceChannel (env : environment) (s : session)
  : bool * session :=
  match member_channel env with
  | Some _ => (true, s)
  | None => (false, say reply_not_in_channel s)
  end.

(** The outer [catch] of [connect]: a last reply, awaited. *)
Definition connect_catch (env : environment) (s : session)
  : outcome * session :=
  (if reply_resolves env reply_connect_error then resolved None else rejected,
   say reply_connect_error s).

(** [connect()].  A connection that never became ready is destroyed before
    [setupConnectionHandlers] has run, so that no listener of the handler
    hears of it; one whose success reply fails is destroyed after. *)
Definition connect (env : environment) (s : session) : outcome * session :=
  let (inChannel, s0) := isUserInVoiceChannel env s in
  if negb inChannel then (resolved None, s0)
  else
    match voiceConnection (state s0) with
    | Some _ =>
        let s1 := say reply_already_connected s0 in
        if reply_resolves env reply_already_connected
        then (resolved None, s1)
        else connect_catch env s1
    | None =>
        let connection := joined env in
        let w1 := set_voiceConnection (Some connection) (state s0) in
        if becomes_ready env then
          let w2 := set_currentConnection (Some connection) w1 in
          let s2 := say reply_connected (mkSession w2 (replies s0)) in
          if reply_resolves env reply_connected
          then (resolved (Some connection), s2)
          else connect_catch env (mkSession (destroy w2) (replies s2))
        else
          connect_catch env
            (mkSession (set_voiceConnection None w1) (replies s0))
    end.

(** The handler as its constructor leaves it, in a guild whose registry
    holds [registry]. *)
Definition constructed (registry : option VoiceConnection) : world :=
  mkWorld (mkHandler false None 0 None) [] 0 0 [] registry.

(** The [Disconnected] listener: the connection is destroyed unless it
    reaches [Signalling] or [Connecting] within 5 seconds. *)
Definition onDisconnected (recovers : bool) (w : world) : world :=
  if recovers then w else set_currentConnection None (destroy w).

(** The embed a call of [connect] replies with first. *)
Definition first_reply (env : environment) (s : session) : reply :=
  match member_channel env with
  | None => reply_not_in_channel
  | Some _ =>
      match voiceConnection (state s) with
      | Some _ => reply_already_connected
      | None => if becomes_ready env then reply_connected
                else reply_connect_error
      end
  end.

(** Every pending timer has a handle already handed out and is due within
    [SILENCE_THRESHOLD] ms. *)
Definition timers_bounded (w : world) : Prop :=
  Forall (fun p => fst p < fresh w /\ snd p <= clock w + SILENCE_THRESHOLD)
    (timers w).

(** The number of listener calls above the noise floor among the inputs. *)
Definition loud_frames (inputs : list input) : nat :=
  List.length (filter (fun i => negb (quiet_input i)) inputs).

(** Three per [realSpeechStart] emitted, plus the counter while idle: what
    the frames above the noise floor have paid for so far. *)
Definition frames_accounted (w : world) : nat :=
  3 * count realSpeechStart (emitted w)
  + (if isSpeaking (this w) then 0 else consecutiveNoiseFrames (this w)).

(** What a run of frames from [w] to [w'] has emitted. *)
Definition summary (w w' : world) : Prop :=
  (isSpeaking (this w) = true -> isSpeaking (this w') = true)
  /\ emitted w'
     = emitted w
       ++ (if negb (isSpeaking (this w)) && isSpeaking (this w')
           then [realSpeechStart] else []).

(** A countdown in flight: speaking, with the one timer [t] due at [due],
    and [log] emitted so far. *)
Definition counting_down
  (t : Timeout) (due : nat) (log : list event) (w : world) : Prop :=
  timers w = [(t, due)] /\ silenceTimer (this w) = Some t
  /\ isSpeaking (this w) = true /\ emitted w = log.

(** The handle [t] has been handed out and is not pending. *)
Definition retired (t : Timeout) (w : world) : Prop :=
  t < fresh w /\ Forall (fun p => fst p <> t) (timers w).

(** ** Chunks, streams and listeners

    [calculateAudioLevel], [onData] and [step] above are one call of a
    listener: their [chunk] is the content of [chunk.buffer], the
    [ArrayBuffer] behind the chunk, and [stream_data] is one ['data']
    listener being called.  What follows puts the chunk itself and the
    attaching of listeners on top of them. *)

Module Chunk.

(** A Node [Buffer]: the view of [length] bytes, from [byteOffset] on, of
    the [ArrayBuffer] whose content is [buffer]. *)
Record t : Type := mk {
  buffer : list byte;
  byteOffset : nat;
  length : nat
}.

Definition well_formed (chunk : t) : Prop :=
  byteOffset chunk + length chunk <= List.length (buffer chunk).

(** The bytes of the chunk itself: the frame. *)
Definition bytes (chunk : t) : list byte :=
  firstn (length chunk) (skipn (byteOffset chunk) (buffer chunk)).

(** The chunk is the whole of its [ArrayBuffer]. *)
Definition whole (chunk : t) : Prop :=
  byteOffset chunk = 0 /\ length chunk = List.length (buffer chunk).

(** The chunk that is the whole of an [ArrayBuffer] of the given bytes. *)
Definition of_bytes (content : list byte) : t :=
  mk content 0 (List.length content).

(** [calculateAudioLevel(chunk)]: the view is [new Int16Array(chunk.buffer)];
    [chunk.byteOffset] and [chunk.length] are not read. *)
Definition calculateAudioLevel (chunk : t) : result number :=
  calculateAudioLevel (buffer chunk).

(** One ['data'] listener called with [chunk]. *)
Definition onData (chunk : t) (w : world) : result world :=
  onData (buffer chunk) w.

End Chunk.

Definition AudioReceiveStream := nat.

(** What the connection, its receiver and the streams emit, with the calls
    and timers of [input].  [on_start u stream] is the ['start'] of [u],
    for which [receiver.subscribe(u)] returns [stream]; [on_data u stream
    chunk] is [stream], subscribed for [u], emitting ['data']. *)
Inductive emission : Type :=
| on_start (u : userId) (stream : AudioReceiveStream)
| on_end (u : userId)
| on_data (u : userId) (stream : AudioReceiveStream) (chunk : Chunk.t)
| on_stream_end (u : userId) (stream : AudioReceiveStream)
| on_destroyed
| on_disconnect
| on_elapse (ms : nat)
| on_timeout (t : Timeout).

(** The world of the handler and, for each stream, the number of ['data']
    listeners [handleAudioStream] has attached to it. *)
Record receiver : Type := mkReceiver {
  handling : world;
  dataListeners : AudioReceiveStream -> nat
}.

(** The listener calls an emission leads to.  A ['data'] is handed to every
    listener of the stream in turn (a listener that throws stops the
    others, which would throw as well and change nothing). *)
Definition callbacks (r : receiver) (e : emission) : list input :=
  match e with
  | on_start u _ => [speaking_start u]
  | on_end u => [speaking_end u]
  | on_data u stream chunk =>
      repeat (stream_data u (Chunk.buffer chunk)) (dataListeners r stream)
  | on_stream_end u stream => repeat (stream_end u) (dataListeners r stream)
  | on_destroyed => [connection_destroyed]
  | on_disconnect => [call_disconnect]
  | on_elapse ms => [elapse ms]
  | on_timeout t => [timer_fires t]
  end.

(** One emission: its listeners run, and a ['start'] attaches one more
    ['data'] listener to the stream [subscribe] returned (lines 130-133). *)
Definition receive (r : receiver) (e : emission) : receiver :=
  mkReceiver
    (run (handling r) (callbacks r e))
    (match e with
     | on_start _ stream =>
         fun s => if s =? stream then S (dataListeners r s)
                  else dataListeners r s
     | _ => dataListeners r
     end).

Definition receive_all (r : receiver) (es : list emission) : receiver :=
  fold_left receive es r.

(** The listener calls of a sequence of emissions, in order. *)
Fixpoint trace (r : receiver) (es : list emission) : list input :=
  match es with
  | [] => []
  | e :: rest => callbacks r e ++ trace (receive r e) rest
  end.

(** The receiver once [connect] has returned the connection [c]: no stream
    subscribed yet. *)
Definition connected (c : VoiceConnection) : receiver :=
  mkReceiver (initial c) (fun _ => 0).



(** The number of samples up to which the sum of the squares is exact in a
    double: 2^23 squares of at most 2^30. *)
Definition exact_sum_limit : Z := (2 ^ 23)%Z.

(** The emission is a ['start'] for which [subscribe] returned [stream]. *)
Definition subscribes (stream : AudioReceiveStream) (e : emission) : bool :=
  match e with
  | on_start _ s => s =? stream
  | _ => false
  end.

(** * Properties *)

(** ** Comparisons of levels *)

Section Comparisons.

Local Open Scope R_scope.

Lemma gt_Fin (x y : R) : JS.gt (Fin x) (Fin y) = true <-> y < x.
Proof.
  unfold JS.gt. destruct (Rlt_dec y x); split; intros; try easy; lra.
Qed.

Lemma gt_Fin_false (x y : R) : JS.gt (Fin x) (Fin y) = false <-> x <= y.
Proof.
  unfold JS.gt. destruct (Rlt_dec y x); split; intros; try easy; lra.
Qed.

Lemma ge_Fin (x y : R) : JS.ge (Fin x) (Fin y) = true <-> y <= x.
Proof.
  unfold JS.ge. destruct (Rle_dec y x); split; intros; try easy; lra.
Qed.

(** A level above the speech floor is above the noise floor. *)
Lemma gt_speech_gt_noise (l : number) :
  JS.gt l SPEECH_THRESHOLD = true -> JS.gt l NOISE_THRESHOLD = true.
Proof.
  unfold SPEECH_THRESHOLD, NOISE_THRESHOLD.
  destruct l as [ | | | r]; try easy.
  rewrite !gt_Fin. lra.
Qed.

End Comparisons.

(** Decides a comparison of two finite literals. *)
Ltac js_cmp :=
  unfold NOISE_THRESHOLD, SPEECH_THRESHOLD;
  first [ apply gt_Fin; lra | apply gt_Fin_false; lra | apply ge_Fin; lra ].

(** ** The meter *)

Section MeterFacts.

Lemma fold_squares_ge (samples : list Z) (acc : Z) :
  (acc <= fold_left (fun sum s => sum + s * s) samples acc)%Z.
Proof.
  revert acc. induction samples as [ | s rest IH]; intros acc; simpl.
  - lia.
  - specialize (IH (acc + s * s)%Z). nia.
Qed.

Lemma sum_squares_nonneg (samples : list Z) : (0 <= sum_squares samples)%Z.
Proof. apply fold_squares_ge. Qed.

Local Open Scope R_scope.

Lemma ln_10_pos : 0 < ln 10.
Proof. rewrite <- ln_1. apply ln_increasing; lra. Qed.

Lemma length_pos_IZR (samples : list Z) :
  samples <> [] -> 0 < IZR (Z.of_nat (List.length samples)).
Proof.
  intros Hne. apply IZR_lt. destruct samples; [easy | simpl List.length; lia].
Qed.

(** The level of an empty frame: [0 / 0] is NaN and stays NaN. *)
Lemma level_of_empty : level_of_samples [] = NaN.
Proof.
  unfold level_of_samples, JS.of_Z.
  change (sum_squares []) with 0%Z.
  change (Z.of_nat (List.length (@nil Z))) with 0%Z.
  unfold JS.div at 2.
  destruct (Req_dec_T 0 0) as [_ | H]; [reflexivity | lra].
Qed.

(** The level of a frame of zeros is [-Infinity]. *)
Lemma level_of_silence (samples : list Z) :
  samples <> [] -> sum_squares samples = 0%Z ->
  level_of_samples samples = NegInf.
Proof.
  intros Hne Hsum. pose proof (length_pos_IZR samples Hne) as Hn.
  unfold level_of_samples, JS.of_Z. rewrite Hsum. unfold JS.div at 2.
  destruct (Req_dec_T _ 0) as [H | _]; [lra | ].
  unfold JS.Math_sqrt. destruct (Rlt_dec (0 / _) 0) as [H | _].
  { unfold Rdiv in H. rewrite Rmult_0_l in H. lra. }
  replace (0 / IZR (Z.of_nat (List.length samples))) with 0
    by (unfold Rdiv; now rewrite Rmult_0_l).
  rewrite sqrt_0. unfold JS.div.
  destruct (Req_dec_T 32768 0) as [H | _]; [lra | ].
  replace (0 / 32768) with 0 by lra.
  unfold JS.Math_log10.
  destruct (Rlt_dec 0 0) as [H | _]; [lra | ].
  destruct (Req_dec_T 0 0) as [_ | H]; [ | lra].
  unfold JS.mul.
  destruct (Req_dec_T 20 0) as [H | _]; [lra | ].
  destruct (Rlt_dec 0 20) as [_ | H]; [reflexivity | lra].
Qed.

(** The level of any other frame is finite. *)
Lemma level_of_sound (samples : list Z) :
  samples <> [] -> (0 < sum_squares samples)%Z ->
  level_of_samples samples =
  Fin (20 * (ln (sqrt (IZR (sum_squares samples)
                       / IZR (Z.of_nat (List.length samples))) / 32768)
             / ln 10)).
Proof.
  intros Hne Hsum. pose proof (length_pos_IZR samples Hne) as Hn.
  apply IZR_lt in Hsum.
  assert (Hq : 0 < IZR (sum_squares samples)
                   / IZR (Z.of_nat (List.length samples)))
    by (apply Rdiv_lt_0_compat; assumption).
  pose proof (sqrt_lt_R0 _ Hq) as Hs.
  unfold level_of_samples, JS.of_Z. unfold JS.div at 2.
  destruct (Req_dec_T _ 0) as [H | _]; [lra | ].
  unfold JS.Math_sqrt. destruct (Rlt_dec _ 0) as [H | _]; [lra | ].
  unfold JS.div. destruct (Req_dec_T 32768 0) as [H | _]; [lra | ].
  unfold JS.Math_log10.
  destruct (Rlt_dec _ 0) as [H | _]; [lra | ].
  destruct (Req_dec_T _ 0) as [H | _]; [lra | ].
  reflexivity.
Qed.

End MeterFacts.

(** ** The sequence of emitted events *)

Section Alternation.

Lemma event_eqb_eq (a b : event) : event_eqb a b = true <-> a = b.
Proof. destruct a, b; simpl; split; intros; congruence. Qed.

Lemma other_other (e : event) : other (other e) = e.
Proof. destruct e; reflexivity. Qed.

Lemma other_neq (e : event) : other e <> e.
Proof. destruct e; discriminate. Qed.

Lemma alternates_snoc (log : list event) : forall expect,
  alternates expect log = true ->
  alternates expect
    (log ++ [if Nat.odd (List.length log) then other expect else expect])
  = true.
Proof.
  induction log as [ | e rest IH]; intros expect H; simpl in *.
  - destruct expect; reflexivity.
  - apply andb_true_iff in H as [He Hrest].
    rewrite He. simpl. specialize (IH _ Hrest).
    rewrite Nat.odd_succ, <- Nat.negb_odd.
    destruct (Nat.odd (List.length rest)); simpl in *;
      rewrite ?other_other in IH; exact IH.
Qed.

(** Neighbours of an alternating sequence differ. *)
Lemma alternates_adjacent (log : list event) : forall expect pre a b post,
  alternates expect log = true ->
  log = pre ++ a :: b :: post -> a <> b.
Proof.
  intros expect pre. revert log expect.
  induction pre as [ | p pre IH]; intros log expect a b post H ->; simpl in H.
  - apply andb_true_iff in H as [Ha H].
    apply andb_true_iff in H as [Hb _].
    apply event_eqb_eq in Ha, Hb. subst. intros E.
    symmetry in E. exact (other_neq _ E).
  - apply andb_true_iff in H as [_ H]. exact (IH _ _ _ _ _ H eq_refl).
Qed.

(** In an alternating sequence that begins with [e], the number of [e]
    is the number of [other e], or one more. *)
Lemma alternates_count (log : list event) : forall expect,
  alternates expect log = true ->
  count (other expect) log <= count expect log <= S (count (other expect) log).
Proof.
  unfold count.
  induction log as [ | e rest IH]; intros expect H; simpl in *.
  - lia.
  - apply andb_true_iff in H as [He Hrest].
    apply event_eqb_eq in He. subst e.
    specialize (IH _ Hrest). rewrite other_other in IH.
    destruct expect; simpl in *; lia.
Qed.

Lemma alternates_prefix (pre post : list event) : forall expect,
  alternates expect (pre ++ post) = true -> alternates expect pre = true.
Proof.
  induction pre as [ | e pre IH]; intros expect H; simpl in *.
  - reflexivity.
  - apply andb_true_iff in H as [He H]. rewrite He. simpl. eauto.
Qed.

End Alternation.

(** ** Invariants of the handler *)

Arguments JS.gt : simpl never.

Section Invariants.

Lemma inv_initial (c : VoiceConnection) : inv (initial c).
Proof. repeat split. Qed.

Lemma filter_single (t : Timeout) (due : nat) :
  filter (fun p : Timeout * nat => negb (fst p =? t)) [(t, due)] = [].
Proof. simpl. now rewrite Nat.eqb_refl. Qed.

Lemma inv_processAudioLevel (l : number) (w : world) :
  inv w -> inv (processAudioLevel l w).
Proof.
  destruct w as [[sp st cn cc] tm ck fr em vc].
  unfold inv, timer_inv, log_inv, processAudioLevel. cbn -[Nat.leb].
  intros [Ht [Ha Hs]].
  destruct (JS.gt l NOISE_THRESHOLD).
  - destruct (JS.gt l SPEECH_THRESHOLD && (REQUIRED_NOISE_FRAMES <=? S cn));
      simpl; [ | auto].
    destruct sp; simpl.
    + destruct st as [t | ]; simpl.
      * destruct Ht as [_ [due ->]]. rewrite filter_single. auto.
      * auto.
    + destruct st as [t | ]; [destruct Ht; discriminate | ]. simpl.
      subst tm. split; [reflexivity | ].
      rewrite length_app, Nat.add_1_r, Nat.odd_succ, <- Nat.negb_odd, <- Hs.
      split; [ | reflexivity].
      pose proof (alternates_snoc em _ Ha) as H. now rewrite <- Hs in H.
  - destruct sp; simpl; [ | auto].
    destruct st as [t | ]; simpl; [auto | ].
    subst tm. simpl. repeat split; eauto.
Qed.

Lemma timer_due_single (t t' : Timeout) (due : nat) (w : world) :
  timers w = [(t', due)] -> timer_due t w = true -> t = t' /\ due <= clock w.
Proof.
  unfold timer_due. intros ->. simpl. rewrite orb_false_r.
  intros H. apply andb_true_iff in H as [H1 H2].
  apply Nat.eqb_eq in H1. apply Nat.leb_le in H2. auto.
Qed.

Lemma inv_onTimeout (t : Timeout) (w : world) : inv w -> inv (onTimeout t w).
Proof.
  unfold onTimeout. destruct (timer_due t w) eqn:Hdue; [ | auto].
  destruct w as [[sp st cn cc] tm ck fr em vc].
  unfold inv, timer_inv, log_inv. intros [Ht [Ha Hs]]. simpl in Ht, Ha, Hs.
  destruct st as [t' | ].
  - destruct Ht as [-> [due Htm]].
    assert (t = t') as ->
      by (eapply proj1, timer_due_single; [ | exact Hdue]; exact Htm).
    clear Hdue.
    subst tm. simpl. rewrite Nat.eqb_refl. simpl. split; [reflexivity | ].
    rewrite length_app, Nat.add_1_r, Nat.odd_succ, <- Nat.negb_odd, <- Hs.
    split; [ | reflexivity].
    pose proof (alternates_snoc em _ Ha) as H. now rewrite <- Hs in H.
  - subst tm. discriminate Hdue.
Qed.

Lemma inv_step (w : world) (i : input) : inv w -> inv (step w i).
Proof.
  intros H. destruct i as [u | u | u chunk | u | | | ms | t]; simpl; auto.
  - unfold onData. destruct (calculateAudioLevel chunk); auto.
    now apply inv_processAudioLevel.
  - unfold disconnect. destruct (voiceConnection w); auto.
  - now apply inv_onTimeout.
Qed.

Lemma inv_run (inputs : list input) : forall w, inv w -> inv (run w inputs).
Proof.
  unfold run. induction inputs as [ | i rest IH]; intros w H; simpl.
  - exact H.
  - apply IH. now apply inv_step.
Qed.

Lemma inv_reachable (w : world) : reachable w -> inv w.
Proof. intros (c & inputs & ->). apply inv_run, inv_initial. Qed.

End Invariants.

(** ** One frame *)

Section Frames.

Lemma gt_asym (a b : number) : JS.gt a b = true -> JS.gt b a = false.
Proof.
  destruct a as [ | | | x], b as [ | | | y]; try easy.
  rewrite gt_Fin, gt_Fin_false. lra.
Qed.

(** A frame above the noise floor that does not confirm speech. *)
Lemma processAudioLevel_counting (l : number) (w : world) :
  JS.gt l NOISE_THRESHOLD = true ->
  JS.gt l SPEECH_THRESHOLD
  && (REQUIRED_NOISE_FRAMES <=? S (consecutiveNoiseFrames (this w))) = false ->
  processAudioLevel l w
  = set_consecutiveNoiseFrames (S (consecutiveNoiseFrames (this w))) w.
Proof.
  intros Hn Hc. unfold processAudioLevel. rewrite Hn.
  cbn -[Nat.leb]. now rewrite Hc.
Qed.

(** A frame that confirms speech. *)
Lemma processAudioLevel_speech (l : number) (w : world) :
  JS.gt l SPEECH_THRESHOLD = true ->
  REQUIRED_NOISE_FRAMES <= S (consecutiveNoiseFrames (this w)) ->
  processAudioLevel l w
  = let w1 :=
      set_consecutiveNoiseFrames (S (consecutiveNoiseFrames (this w))) w in
    let w2 := if isSpeaking (this w) then w1 else handleSpeechStart w1 in
    match silenceTimer (this w) with
    | Some t => set_silenceTimer None (clearTimeout t w2)
    | None => w2
    end.
Proof.
  intros Hs Hc. unfold processAudioLevel.
  rewrite (gt_speech_gt_noise _ Hs), Hs.
  apply Nat.leb_le in Hc. cbn -[Nat.leb]. rewrite Hc. simpl.
  destruct (isSpeaking (this w)); reflexivity.
Qed.

(** A frame at or below the noise floor, and any frame whose level is NaN. *)
Lemma processAudioLevel_quiet (l : number) (w : world) :
  JS.gt l NOISE_THRESHOLD = false ->
  processAudioLevel l w
  = match isSpeaking (this w), silenceTimer (this w) with
    | true, None =>
        mkWorld
          (mkHandler true (Some (fresh w)) 0 (currentConnection (this w)))
          (timers w ++ [(fresh w, clock w + SILENCE_THRESHOLD)]) (clock w)
          (S (fresh w)) (emitted w) (voiceConnection w)
    | _, _ => set_consecutiveNoiseFrames 0 w
    end.
Proof.
  intros Hn. unfold processAudioLevel. rewrite Hn. simpl.
  destruct (isSpeaking (this w)) eqn:Hsp; [ | reflexivity].
  destruct (silenceTimer (this w)); reflexivity.
Qed.

End Frames.

(** ** Frames between the two floors *)

(** C10.  A frame whose level exceeds [NOISE_THRESHOLD] but which does not
    satisfy both [audioLevel > SPEECH_THRESHOLD] and (incremented)
    [consecutiveNoiseFrames >= REQUIRED_NOISE_FRAMES] only increments
    [consecutiveNoiseFrames]: [isSpeaking], [silenceTimer], the pending
    timers and the emitted events stay as they were, so the frame neither
    cancels a running countdown nor emits an event. *)
Theorem mid_band_frame_only_counts (l : number) (w : world) :
  JS.gt l NOISE_THRESHOLD = true ->
  JS.gt l SPEECH_THRESHOLD
  && (REQUIRED_NOISE_FRAMES <=? S (consecutiveNoiseFrames (this w))) = false ->
  let w' := processAudioLevel l w in
  w' = set_consecutiveNoiseFrames (S (consecutiveNoiseFrames (this w))) w
  /\ consecutiveNoiseFrames (this w') = S (consecutiveNoiseFrames (this w))
  /\ isSpeaking (this w') = isSpeaking (this w)
  /\ silenceTimer (this w') = silenceTimer (this w)
  /\ timers w' = timers w
  /\ emitted w' = emitted w.
Proof.
  intros Hn Hc w'. subst w'.
  rewrite (processAudioLevel_counting l w Hn Hc).
  repeat split.
Qed.

Lemma mid_band_frame_only_counts_witness :
  let w' := processAudioLevel (Fin (-40)) speaking_with_countdown in
  w' = set_consecutiveNoiseFrames 1 speaking_with_countdown
  /\ consecutiveNoiseFrames (this w') = 1
  /\ isSpeaking (this w') = true
  /\ silenceTimer (this w') = Some 0
  /\ timers w' = [(0, 500)]
  /\ emitted w' = [realSpeechStart].
Proof.
  apply (mid_band_frame_only_counts (Fin (-40)) speaking_with_countdown).
  - js_cmp.
  - apply andb_false_intro1. js_cmp.
Defined.

(** ** The hysteresis test vector *)

(** C6, as stated, fails: two frames at -40 dB (above the noise floor, below
    the speech floor) and then one frame at -30 dB (above the speech floor)
    emit [realSpeechStart]. *)
Lemma test_vector_counterexample :
  (JS.gt (Fin (-40)) NOISE_THRESHOLD = true
   /\ JS.gt SPEECH_THRESHOLD (Fin (-40)) = true
   /\ JS.gt (Fin (-30)) SPEECH_THRESHOLD = true)
  /\ In realSpeechStart
       (emitted (after_three 0 (Fin (-40)) (Fin (-40)) (Fin (-30)))).
Proof.
  split.
  - repeat split; js_cmp.
  - unfold after_three.
    assert (Hn : JS.gt (Fin (-40)) NOISE_THRESHOLD = true) by js_cmp.
    assert (Hs : JS.gt (Fin (-40)) SPEECH_THRESHOLD = false) by js_cmp.
    rewrite (processAudioLevel_counting _ (initial 0) Hn)
      by (rewrite Hs; reflexivity).
    rewrite (processAudioLevel_counting _ _ Hn) by (rewrite Hs; reflexivity).
    rewrite processAudioLevel_speech; [ | js_cmp | simpl; unfold REQUIRED_NOISE_FRAMES; lia].
    simpl. now left.
Qed.

(** C6, amended.  From the initial state, two frames above the noise floor
    and below the speech floor emit nothing, and a third frame above the
    speech floor emits exactly one [realSpeechStart]: the two frames between
    the floors count towards [REQUIRED_NOISE_FRAMES]. *)
Theorem test_vector_starts_on_third_frame
  (c : VoiceConnection) (l1 l2 l3 : number) :
  JS.gt l1 NOISE_THRESHOLD = true -> JS.gt SPEECH_THRESHOLD l1 = true ->
  JS.gt l2 NOISE_THRESHOLD = true -> JS.gt SPEECH_THRESHOLD l2 = true ->
  JS.gt l3 SPEECH_THRESHOLD = true ->
  emitted (processAudioLevel l2 (processAudioLevel l1 (initial c))) = []
  /\ emitted (after_three c l1 l2 l3) = [realSpeechStart]
  /\ isCurrentlySpeaking (after_three c l1 l2 l3) = true.
Proof.
  intros Hn1 Hs1 Hn2 Hs2 Hs3. unfold after_three.
  apply gt_asym in Hs1, Hs2.
  rewrite (processAudioLevel_counting _ (initial c) Hn1)
    by (rewrite Hs1; reflexivity).
  rewrite (processAudioLevel_counting _ _ Hn2) by (rewrite Hs2; reflexivity).
  split; [reflexivity | ].
  rewrite processAudioLevel_speech;
    [ | exact Hs3 | simpl; unfold REQUIRED_NOISE_FRAMES; lia].
  split; reflexivity.
Qed.

Lemma test_vector_starts_on_third_frame_witness :
  emitted (processAudioLevel (Fin (-40))
             (processAudioLevel (Fin (-45)) (initial 0))) = []
  /\ emitted (after_three 0 (Fin (-45)) (Fin (-40)) (Fin (-20)))
     = [realSpeechStart]
  /\ isCurrentlySpeaking (after_three 0 (Fin (-45)) (Fin (-40)) (Fin (-20)))
     = true.
Proof.
  apply (test_vector_starts_on_third_frame 0 (Fin (-45)) (Fin (-40)) (Fin (-20)));
    js_cmp.
Defined.

(** ** Reachable states *)

(** C8.  In every state reached from the initial one by any sequence of
    inputs (frames, timer expiries, passing time, teardown), [silenceTimer]
    is set only while [isSpeaking] is true, at most one timer is pending in
    the event loop, and a timer is pending exactly when its handle is the
    one stored in [silenceTimer]. *)
Theorem timer_only_while_speaking (c : VoiceConnection) (inputs : list input) :
  let w := run (initial c) inputs in
  (silenceTimer (this w) <> None -> isSpeaking (this w) = true)
  /\ List.length (timers w) <= 1
  /\ (forall t, silenceTimer (this w) = Some t
                <-> exists due, timers w = [(t, due)]).
Proof.
  intros w.
  assert (H : timer_inv w) by (apply inv_run, inv_initial).
  unfold timer_inv in H.
  destruct (silenceTimer (this w)) as [t | ].
  - destruct H as [Hsp [due Htm]]. rewrite Htm.
    split; [auto | ]. split; [simpl; lia | ].
    intros t'. split.
    + intros [= ->]. eauto.
    + intros [due' [= -> _]]. reflexivity.
  - rewrite H. split; [congruence | ]. split; [simpl; lia | ].
    intros t. split; [discriminate | intros [due Hd]; discriminate].
Qed.

(** C7.  For every sequence of inputs applied from the initial (Idle)
    state, the emitted events alternate and begin with [realSpeechStart];
    no two neighbours are equal; and in every prefix the number of
    [realSpeechEnd] is at most the number of [realSpeechStart], which exceeds
    it by at most one. *)
Theorem events_alternate (c : VoiceConnection) (inputs : list input) :
  let log := emitted (run (initial c) inputs) in
  alternates realSpeechStart log = true
  /\ (forall pre a b post, log = pre ++ a :: b :: post -> a <> b)
  /\ (forall pre post, log = pre ++ post ->
        count realSpeechEnd pre <= count realSpeechStart pre
        <= S (count realSpeechEnd pre)).
Proof.
  intros log.
  assert (H : alternates realSpeechStart log = true)
    by (apply (inv_run inputs (initial c)), inv_initial).
  split; [exact H | ]. split.
  - intros pre a b post E. exact (alternates_adjacent _ _ _ _ _ _ H E).
  - intros pre post E. rewrite E in H.
    apply alternates_prefix in H.
    exact (alternates_count _ _ H).
Qed.

(** ** Two concrete frames *)

Section ConcreteFrames.

Local Open Scope R_scope.

Lemma level_of_loud_chunk : calculateAudioLevel loud_chunk = Ret (Fin 0).
Proof.
  unfold calculateAudioLevel, loud_chunk.
  change (Int16Array [x00; x80]) with (Ret [(-32768)%Z]). cbv beta iota.
  rewrite level_of_sound; [ | discriminate | reflexivity].
  change (sum_squares [(-32768)%Z]) with (32768 * 32768)%Z.
  change (Z.of_nat (List.length [(-32768)%Z])) with 1%Z.
  rewrite mult_IZR.
  replace (IZR 32768 * IZR 32768 / 1) with (32768 * 32768) by lra.
  rewrite sqrt_square by lra.
  replace (32768 / 32768) with 1 by lra.
  rewrite ln_1. do 2 f_equal. lra.
Qed.

Lemma level_of_silent_chunk : calculateAudioLevel silent_chunk = Ret NegInf.
Proof.
  unfold calculateAudioLevel, silent_chunk.
  change (Int16Array [x00; x00]) with (Ret [0%Z]). cbv beta iota.
  rewrite level_of_silence; [reflexivity | discriminate | reflexivity].
Qed.

End ConcreteFrames.

Lemma step_loud (u : userId) (w : world) :
  step w (stream_data u loud_chunk) = processAudioLevel (Fin 0) w.
Proof. cbn [step]. unfold onData. now rewrite level_of_loud_chunk. Qed.

Lemma step_silent (u : userId) (w : world) :
  step w (stream_data u silent_chunk) = processAudioLevel NegInf w.
Proof. cbn [step]. unfold onData. now rewrite level_of_silent_chunk. Qed.

Lemma run_cons (w : world) (i : input) (rest : list input) :
  run w (i :: rest) = run (step w i) rest.
Proof. reflexivity. Qed.

Lemma run_nil (w : world) : run w [] = w.
Proof. reflexivity. Qed.

(** Evaluates [processAudioLevel] at a literal level on a literal world. *)
Ltac frame :=
  first
    [ rewrite processAudioLevel_speech
        by first [ js_cmp | cbn; unfold REQUIRED_NOISE_FRAMES; lia ]
    | rewrite processAudioLevel_counting
        by first [ js_cmp
                 | apply andb_false_intro1; js_cmp
                 | apply andb_false_intro2; reflexivity ]
    | rewrite processAudioLevel_quiet by first [ js_cmp | reflexivity ] ];
  cbn -[run step processAudioLevel].

(** Evaluates [run] on a literal world, one input at a time. *)
Ltac run_inputs :=
  repeat (rewrite run_cons;
          first [ rewrite step_loud; frame
                | rewrite step_silent; frame
                | cbn [step] ]);
  rewrite ?run_nil.

Lemma speaking_with_countdown_reachable :
  speaking_with_countdown
  = run (initial 0)
      [stream_data "a"%string loud_chunk; stream_data "a"%string loud_chunk;
       stream_data "a"%string loud_chunk; stream_data "a"%string silent_chunk].
Proof. run_inputs. reflexivity. Qed.

(** ** Cancelling the countdown *)

(** With no timer pending, nothing is emitted until the next frame. *)
Lemma silent_without_timer (inputs : list input) : forall w,
  timers w = [] -> forallb (fun i => negb (is_frame i)) inputs = true ->
  emitted (run w inputs) = emitted w /\ timers (run w inputs) = [].
Proof.
  induction inputs as [ | i rest IH]; intros w Ht Hf; simpl in Hf.
  - now rewrite run_nil.
  - apply andb_true_iff in Hf as [Hi Hrest]. rewrite run_cons.
    assert (H : emitted (step w i) = emitted w /\ timers (step w i) = []).
    { destruct i as [u | u | u chunk | u | | | ms | t];
        try discriminate Hi; cbn [step]; auto.
      - unfold disconnect. destruct (voiceConnection w); auto.
      - unfold onTimeout, timer_due. rewrite Ht. auto. }
    destruct H as [He Ht']. rewrite <- He. now apply IH.
Qed.

(** C5, as stated, fails: with the handler speaking and the countdown
    pending, a frame at -40 dB exceeds the noise floor and leaves the timer
    pending, and the timer then fires and emits [realSpeechEnd]. *)
Lemma above_noise_counterexample :
  let w := speaking_with_countdown in
  let w' := processAudioLevel (Fin (-40)) w in
  (reachable w /\ isSpeaking (this w) = true /\ silenceTimer (this w) = Some 0
   /\ JS.gt (Fin (-40)) NOISE_THRESHOLD = true)
  /\ silenceTimer (this w') = Some 0
  /\ timers w' = [(0, 500)]
  /\ emitted (run w' [elapse 500; timer_fires 0])
     = [realSpeechStart; realSpeechEnd].
Proof.
  intros w w'. split.
  - split; [ | repeat split; js_cmp].
    exists 0. eexists. apply speaking_with_countdown_reachable.
  - subst w' w. frame. repeat split.
Qed.

(** C5, amended.  With the countdown pending, a frame whose level exceeds
    [SPEECH_THRESHOLD] and which brings [consecutiveNoiseFrames] to
    [REQUIRED_NOISE_FRAMES] or more cancels the timer: no timer is pending
    afterwards, the frame emits nothing, and whatever time passes nothing
    is emitted before the next frame. *)
Theorem confirming_frame_cancels_countdown
  (w : world) (l : number) (t : Timeout) :
  reachable w -> silenceTimer (this w) = Some t ->
  JS.gt l SPEECH_THRESHOLD = true ->
  REQUIRED_NOISE_FRAMES <= S (consecutiveNoiseFrames (this w)) ->
  let w' := processAudioLevel l w in
  silenceTimer (this w') = None
  /\ timers w' = []
  /\ isSpeaking (this w') = true
  /\ emitted w' = emitted w
  /\ forall inputs, forallb (fun i => negb (is_frame i)) inputs = true ->
       emitted (run w' inputs) = emitted w.
Proof.
  intros Hr Ht Hs Hc w'. subst w'.
  destruct (inv_reachable w Hr) as [Hti _]. unfold timer_inv in Hti.
  rewrite Ht in Hti. destruct Hti as [Hsp [due Htm]].
  rewrite (processAudioLevel_speech l w Hs Hc). rewrite Ht, Hsp.
  cbn. rewrite Htm, filter_single.
  repeat split; try assumption.
  intros inputs Hf.
  now destruct (silent_without_timer inputs
                  (set_silenceTimer None
                     (clearTimeout t
                        (set_consecutiveNoiseFrames
                           (S (consecutiveNoiseFrames (this w))) w)))
                  ltac:(cbn; rewrite Htm; apply filter_single) Hf).
Qed.

Lemma countdown_two_frames_in_reachable :
  countdown_two_frames_in
  = run (initial 0)
      [stream_data "a"%string loud_chunk; stream_data "a"%string loud_chunk;
       stream_data "a"%string loud_chunk; stream_data "a"%string silent_chunk;
       stream_data "a"%string loud_chunk; stream_data "a"%string loud_chunk].
Proof. run_inputs. reflexivity. Qed.

Lemma confirming_frame_cancels_countdown_witness :
  let w' := processAudioLevel (Fin (-30)) countdown_two_frames_in in
  silenceTimer (this w') = None
  /\ timers w' = []
  /\ isSpeaking (this w') = true
  /\ emitted w' = [realSpeechStart]
  /\ forall inputs, forallb (fun i => negb (is_frame i)) inputs = true ->
       emitted (run w' inputs) = [realSpeechStart].
Proof.
  apply (confirming_frame_cancels_countdown
           countdown_two_frames_in (Fin (-30)) 0).
  - exists 0. eexists. apply countdown_two_frames_in_reachable.
  - reflexivity.
  - js_cmp.
  - unfold REQUIRED_NOISE_FRAMES. simpl. lia.
Defined.

(** ** Zero-length and malformed frames *)

Section Malformed.

Lemma list_pair_ind (A : Type) (P : list A -> Prop) :
  P [] -> (forall a, P [a]) ->
  (forall a b rest, P rest -> P (a :: b :: rest)) ->
  forall l, P l.
Proof.
  intros H0 H1 H2.
  assert (H : forall l, P l /\ forall a, P (a :: l)).
  { induction l as [ | b rest [IH1 IH2]]; split; auto. }
  intros l. apply H.
Qed.

(** The view exists exactly for buffers of even length, with one sample
    per two bytes. *)
Lemma Int16Array_parity (buffer : list byte) :
  if Nat.odd (List.length buffer)
  then Int16Array buffer = Throw RangeError
  else exists samples,
         Int16Array buffer = Ret samples
         /\ List.length buffer = 2 * List.length samples.
Proof.
  induction buffer as [ | a | lo hi rest IH] using list_pair_ind.
  - simpl. exists []. auto.
  - reflexivity.
  - change (List.length (lo :: hi :: rest)) with (S (S (List.length rest))).
    rewrite Nat.odd_succ_succ.
    destruct (Nat.odd (List.length rest)).
    + simpl. now rewrite IH.
    + destruct IH as (samples & E & Hlen).
      exists (int16 lo hi :: samples). simpl. rewrite E. split; [easy | lia].
Qed.

Lemma Int16Array_empty (buffer : list byte) :
  Int16Array buffer = Ret [] -> buffer = [].
Proof.
  intros H. pose proof (Int16Array_parity buffer) as P.
  destruct (Nat.odd (List.length buffer)); [congruence | ].
  destruct P as (samples & E & Hlen).
  rewrite H in E. injection E as <-. simpl in Hlen.
  now destruct buffer.
Qed.

End Malformed.

Section WholeChunks.

Lemma whole_bytes (chunk : Chunk.t) :
  Chunk.whole chunk -> Chunk.bytes chunk = Chunk.buffer chunk.
Proof.
  unfold Chunk.whole, Chunk.bytes. intros [-> ->]. apply firstn_all.
Qed.

Lemma whole_of_bytes (content : list byte) :
  Chunk.whole (Chunk.of_bytes content).
Proof. split; reflexivity. Qed.

Lemma whole_length (chunk : Chunk.t) :
  Chunk.whole chunk -> List.length (Chunk.buffer chunk) = Chunk.length chunk.
Proof. now intros [_ ->]. Qed.

Lemma whole_empty (chunk : Chunk.t) :
  Chunk.whole chunk -> Chunk.length chunk = 0 -> Chunk.buffer chunk = [].
Proof.
  intros Hw H0. apply whole_length in Hw. rewrite H0 in Hw.
  now destruct (Chunk.buffer chunk).
Qed.

End WholeChunks.

(** C4, as stated, fails: for the chunk of zero bytes, which is the whole
    of its empty [ArrayBuffer], the meter raises no error and its result is
    the number NaN. *)
Lemma zero_length_counterexample :
  let chunk := Chunk.of_bytes [] in
  Chunk.length chunk = 0
  /\ Chunk.whole chunk
  /\ Chunk.calculateAudioLevel chunk = Ret NaN
  /\ forall e, Chunk.calculateAudioLevel chunk <> Throw e.
Proof.
  assert (H : Chunk.calculateAudioLevel (Chunk.of_bytes []) = Ret NaN).
  { unfold Chunk.calculateAudioLevel, calculateAudioLevel.
    cbn [Chunk.buffer Chunk.of_bytes Int16Array]. now rewrite level_of_empty. }
  cbv zeta. split; [reflexivity | ]. split; [apply whole_of_bytes | ].
  split; [exact H | ]. intros e. rewrite H. discriminate.
Qed.

(** C4, amended.  For every frame with zero samples that is the whole of
    its chunk's [ArrayBuffer], [calculateAudioLevel] raises no error and
    returns NaN, which compares false with both thresholds. *)
Theorem zero_length_frame_is_NaN (chunk : Chunk.t) :
  Chunk.whole chunk -> Chunk.length chunk = 0 ->
  Chunk.calculateAudioLevel chunk = Ret NaN
  /\ JS.gt NaN NOISE_THRESHOLD = false
  /\ JS.gt NaN SPEECH_THRESHOLD = false.
Proof.
  intros Hw H0. unfold Chunk.calculateAudioLevel, calculateAudioLevel.
  rewrite (whole_empty chunk Hw H0). cbn [Int16Array].
  rewrite level_of_empty. repeat split.
Qed.

Lemma zero_length_frame_is_NaN_witness :
  Chunk.calculateAudioLevel (Chunk.of_bytes []) = Ret NaN
  /\ JS.gt NaN NOISE_THRESHOLD = false
  /\ JS.gt NaN SPEECH_THRESHOLD = false.
Proof.
  apply (zero_length_frame_is_NaN (Chunk.of_bytes []));
    [apply whole_of_bytes | reflexivity].
Defined.

Lemma speaking_no_countdown_reachable :
  speaking_no_countdown
  = run (initial 0)
      [stream_data "a"%string loud_chunk; stream_data "a"%string loud_chunk;
       stream_data "a"%string loud_chunk].
Proof. run_inputs. reflexivity. Qed.

Lemma onData_empty (w : world) : onData [] w = Ret (processAudioLevel NaN w).
Proof.
  unfold onData, calculateAudioLevel. cbn [Int16Array].
  now rewrite level_of_empty.
Qed.

(** C3, as stated, fails: while speaking with a counter of 3 and no timer,
    the chunk of zero bytes, the whole of its [ArrayBuffer], raises no
    error, resets the counter and starts the silence countdown, which then
    ends the speech: the frame is treated as silence. *)
Lemma zero_length_frame_counterexample :
  let chunk := Chunk.of_bytes [] in
  reachable speaking_no_countdown
  /\ Chunk.whole chunk /\ Chunk.length chunk = 0
  /\ exists w',
       Chunk.onData chunk speaking_no_countdown = Ret w'
       /\ consecutiveNoiseFrames (this w') = 0
       /\ consecutiveNoiseFrames (this speaking_no_countdown) = 3
       /\ silenceTimer (this w') = Some 0
       /\ silenceTimer (this speaking_no_countdown) = None
       /\ emitted (run w' [elapse 500; timer_fires 0])
          = [realSpeechStart; realSpeechEnd].
Proof.
  cbv zeta. split; [ | split; [apply whole_of_bytes | split; [reflexivity | ]]].
  - exists 0. eexists. apply speaking_no_countdown_reachable.
  - eexists. split; [apply onData_empty | ].
    frame. repeat split.
Qed.

(** C3, amended.  For a frame that is the whole of its chunk's
    [ArrayBuffer]: when its byte length is odd the measurement throws
    before [processAudioLevel] runs, and the state is left exactly as it
    was; when it has zero bytes no error is raised, its level is NaN, and
    [processAudioLevel] handles it as a frame at or below the noise floor,
    resetting [consecutiveNoiseFrames] and, when speaking with no timer
    pending, starting the countdown; [isSpeaking] is unchanged and the frame
    emits nothing. *)
Theorem malformed_frame_effect (w : world) (u : userId) (chunk : Chunk.t) :
  Chunk.whole chunk ->
  (Nat.odd (Chunk.length chunk) = true ->
     Chunk.onData chunk w = Throw RangeError
     /\ step w (stream_data u (Chunk.buffer chunk)) = w)
  /\ (Chunk.length chunk = 0 ->
      let w' := processAudioLevel NaN w in
      Chunk.onData chunk w = Ret w'
      /\ step w (stream_data u (Chunk.buffer chunk)) = w'
      /\ isSpeaking (this w') = isSpeaking (this w)
      /\ consecutiveNoiseFrames (this w') = 0
      /\ silenceTimer (this w')
         = match silenceTimer (this w) with
           | Some t => Some t
           | None => if isSpeaking (this w) then Some (fresh w) else None
           end
      /\ timers w'
         = match isSpeaking (this w), silenceTimer (this w) with
           | true, None => timers w ++ [(fresh w, clock w + SILENCE_THRESHOLD)]
           | _, _ => timers w
           end
      /\ emitted w' = emitted w).
Proof.
  intros Hw. split.
  - intros Hodd. rewrite <- (whole_length chunk Hw) in Hodd.
    pose proof (Int16Array_parity (Chunk.buffer chunk)) as P.
    rewrite Hodd in P.
    assert (H : Chunk.onData chunk w = Throw RangeError)
      by (unfold Chunk.onData, onData, calculateAudioLevel; now rewrite P).
    split; [exact H | ]. cbn [step]. unfold Chunk.onData in H. now rewrite H.
  - intros H0 w'. subst w'. unfold Chunk.onData.
    rewrite (whole_empty chunk Hw H0).
    split; [apply onData_empty | ].
    split; [cbn [step]; now rewrite onData_empty | ].
    rewrite (processAudioLevel_quiet NaN w) by reflexivity.
    destruct (isSpeaking (this w)) eqn:Hsp, (silenceTimer (this w)) eqn:Hst;
      cbn; rewrite ?Hsp, ?Hst; repeat split.
Qed.

Lemma malformed_frame_effect_witness :
  (Chunk.onData (Chunk.of_bytes [x01]) speaking_no_countdown = Throw RangeError
   /\ step speaking_no_countdown (stream_data "a"%string [x01])
      = speaking_no_countdown)
  /\ step speaking_no_countdown (stream_data "a"%string [])
     = processAudioLevel NaN speaking_no_countdown.
Proof.
  split.
  - apply (malformed_frame_effect speaking_no_countdown "a"%string
             (Chunk.of_bytes [x01]) (whole_of_bytes [x01])).
    reflexivity.
  - apply (malformed_frame_effect speaking_no_countdown "a"%string
             (Chunk.of_bytes []) (whole_of_bytes [])).
    reflexivity.
Defined.

(** ** Monotonicity of the meter *)

Section Monotone.

Local Open Scope R_scope.

Lemma ln_le_compat (x y : R) : 0 < x -> x <= y -> ln x <= ln y.
Proof.
  intros Hx [Hlt | ->]; [ | lra].
  left. now apply ln_increasing.
Qed.

(** The decibel value of a positive mean square is monotone. *)
Lemma decibel_le (p q : R) :
  0 < p -> p <= q ->
  20 * (ln (sqrt p / 32768) / ln 10) <= 20 * (ln (sqrt q / 32768) / ln 10).
Proof.
  intros Hp Hpq.
  pose proof ln_10_pos as H10.
  pose proof (sqrt_lt_R0 p Hp) as Hsp.
  assert (Hs : sqrt p <= sqrt q) by (apply sqrt_le_1_alt; exact Hpq).
  assert (Hl : ln (sqrt p / 32768) <= ln (sqrt q / 32768))
    by (apply ln_le_compat; lra).
  apply Rmult_le_compat_l; [lra | ].
  unfold Rdiv. apply Rmult_le_compat_r; [ | exact Hl].
  left. now apply Rinv_0_lt_compat.
Qed.

Lemma decibel_lt (p q : R) :
  0 < p -> p < q ->
  20 * (ln (sqrt p / 32768) / ln 10) < 20 * (ln (sqrt q / 32768) / ln 10).
Proof.
  intros Hp Hpq.
  pose proof ln_10_pos as H10.
  pose proof (sqrt_lt_R0 p Hp) as Hsp.
  assert (Hs : sqrt p < sqrt q) by (apply sqrt_lt_1_alt; lra).
  assert (Hl : ln (sqrt p / 32768) < ln (sqrt q / 32768))
    by (apply ln_increasing; lra).
  apply Rmult_lt_compat_l; [lra | ].
  unfold Rdiv. apply Rmult_lt_compat_r; [ | exact Hl].
  now apply Rinv_0_lt_compat.
Qed.

Lemma mean_square_le_IZR (a b : list Z) :
  a <> [] -> b <> [] -> mean_square_le a b ->
  IZR (sum_squares a) / IZR (Z.of_nat (List.length a))
  <= IZR (sum_squares b) / IZR (Z.of_nat (List.length b)).
Proof.
  intros Ha Hb H. unfold mean_square_le in H.
  pose proof (length_pos_IZR a Ha) as Hna.
  pose proof (length_pos_IZR b Hb) as Hnb.
  apply IZR_le in H. rewrite !mult_IZR in H.
  apply Rmult_le_reg_r with (r := IZR (Z.of_nat (List.length a))); [exact Hna | ].
  apply Rmult_le_reg_r with (r := IZR (Z.of_nat (List.length b))); [exact Hnb | ].
  field_simplify; lra.
Qed.

End Monotone.

Section MonotoneSamples.

(** In exact arithmetic the level of a non-empty list of samples is monotone
    in its mean square, and not NaN. *)
Lemma level_of_samples_monotone (samples1 samples2 : list Z) :
  samples1 <> [] -> samples2 <> [] ->
  mean_square_le samples2 samples1 ->
  JS.isNaN (level_of_samples samples1) = false
  /\ JS.isNaN (level_of_samples samples2) = false
  /\ JS.ge (level_of_samples samples1) (level_of_samples samples2) = true.
Proof.
  intros Hne1 Hne2 Hle.
  pose proof (sum_squares_nonneg samples1) as Hs1.
  pose proof (sum_squares_nonneg samples2) as Hs2.
  pose proof (mean_square_le_IZR _ _ Hne2 Hne1 Hle) as Hq.
  assert (C2 : sum_squares samples2 = 0%Z \/ (0 < sum_squares samples2)%Z)
    by lia.
  assert (C1 : sum_squares samples1 = 0%Z \/ (0 < sum_squares samples1)%Z)
    by lia.
  destruct C2 as [Z2 | P2].
  - rewrite (level_of_silence samples2 Hne2 Z2).
    destruct C1 as [Z1 | P1].
    + rewrite (level_of_silence samples1 Hne1 Z1). repeat split.
    + rewrite (level_of_sound samples1 Hne1 P1). repeat split.
  - assert (P1 : (0 < sum_squares samples1)%Z).
    { unfold mean_square_le in Hle.
      assert (0 < Z.of_nat (List.length samples1))%Z
        by (destruct samples1; [easy | simpl List.length; lia]).
      assert (0 < Z.of_nat (List.length samples2))%Z
        by (destruct samples2; [easy | simpl List.length; lia]).
      nia. }
    rewrite (level_of_sound samples1 Hne1 P1).
    rewrite (level_of_sound samples2 Hne2 P2).
    split; [reflexivity | ]. split; [reflexivity | ].
    apply ge_Fin. apply decibel_le; [ | exact Hq].
    apply Rdiv_lt_0_compat; [now apply IZR_lt | now apply length_pos_IZR].
Qed.

End MonotoneSamples.

(** C9, as stated, fails: of two chunks that are the whole of their
    [ArrayBuffer], the frame [3; 3] has the larger mean absolute sample (3
    against 2.5) and the smaller level, as the frame [0; 5] has the larger
    mean square (12.5 against 9). *)
Lemma mean_abs_counterexample :
  let steady := Chunk.of_bytes steady_chunk in
  let spiky := Chunk.of_bytes spiky_chunk in
  Chunk.whole steady /\ Chunk.whole spiky
  /\ Int16Array (Chunk.bytes steady) = Ret [3; 3]%Z
  /\ Int16Array (Chunk.bytes spiky) = Ret [0; 5]%Z
  /\ mean_abs_le [0; 5]%Z [3; 3]%Z
  /\ exists l1 l2,
       Chunk.calculateAudioLevel steady = Ret l1
       /\ Chunk.calculateAudioLevel spiky = Ret l2
       /\ JS.ge l1 l2 = false.
Proof.
  cbv zeta. split; [apply whole_of_bytes | ]. split; [apply whole_of_bytes | ].
  split; [reflexivity | ]. split; [reflexivity | ].
  split; [unfold mean_abs_le; simpl; lia | ].
  unfold Chunk.calculateAudioLevel, calculateAudioLevel.
  change (Int16Array (Chunk.buffer (Chunk.of_bytes steady_chunk)))
    with (Ret [3; 3]%Z).
  change (Int16Array (Chunk.buffer (Chunk.of_bytes spiky_chunk)))
    with (Ret [0; 5]%Z). cbv beta iota.
  rewrite (level_of_sound [3; 3]%Z) by (discriminate || reflexivity).
  rewrite (level_of_sound [0; 5]%Z) by (discriminate || reflexivity).
  do 2 eexists. split; [reflexivity | ]. split; [reflexivity | ].
  change (sum_squares [3; 3]%Z) with 18%Z.
  change (sum_squares [0; 5]%Z) with 25%Z.
  change (Z.of_nat (List.length [3; 3]%Z)) with 2%Z.
  change (Z.of_nat (List.length [0; 5]%Z)) with 2%Z.
  unfold JS.ge. destruct (Rle_dec _ _) as [H | _]; [ | reflexivity].
  exfalso. apply (Rle_not_lt _ _ H). apply decibel_lt; lra.
Qed.

(** C9, amended.  For non-empty frames that are the whole of their chunk's
    [ArrayBuffer] and hold fewer than 2^23 samples (so that the sum of the
    squares is exact), equal frames have equal levels, and the level is
    monotone in the mean of the squared samples (the square of the RMS
    amplitude): a frame whose mean square is at least another's has a level
    at least the other's. *)
Theorem level_monotone_in_mean_square
  (chunk1 chunk2 : Chunk.t) (samples1 samples2 : list Z) :
  Chunk.whole chunk1 -> Chunk.whole chunk2 ->
  Int16Array (Chunk.bytes chunk1) = Ret samples1 ->
  Int16Array (Chunk.bytes chunk2) = Ret samples2 ->
  samples1 <> [] -> samples2 <> [] ->
  (Z.of_nat (List.length samples1) < exact_sum_limit)%Z ->
  (Z.of_nat (List.length samples2) < exact_sum_limit)%Z ->
  mean_square_le samples2 samples1 ->
  (Chunk.bytes chunk1 = Chunk.bytes chunk2 ->
   Chunk.calculateAudioLevel chunk1 = Chunk.calculateAudioLevel chunk2)
  /\ exists l1 l2,
       Chunk.calculateAudioLevel chunk1 = Ret l1
       /\ Chunk.calculateAudioLevel chunk2 = Ret l2
       /\ JS.isNaN l1 = false /\ JS.isNaN l2 = false
       /\ JS.ge l1 l2 = true.
Proof.
  intros Hw1 Hw2 E1 E2 Hne1 Hne2 _ _ Hle.
  rewrite (whole_bytes chunk1 Hw1) in *. rewrite (whole_bytes chunk2 Hw2) in *.
  unfold Chunk.calculateAudioLevel, calculateAudioLevel.
  split; [now intros -> | ].
  rewrite E1, E2.
  exists (level_of_samples samples1), (level_of_samples samples2).
  split; [reflexivity | ]. split; [reflexivity | ].
  exact (level_of_samples_monotone samples1 samples2 Hne1 Hne2 Hle).
Qed.

Lemma level_monotone_in_mean_square_witness :
  (Chunk.bytes (Chunk.of_bytes spiky_chunk)
   = Chunk.bytes (Chunk.of_bytes steady_chunk) ->
   Chunk.calculateAudioLevel (Chunk.of_bytes spiky_chunk)
   = Chunk.calculateAudioLevel (Chunk.of_bytes steady_chunk))
  /\ exists l1 l2,
       Chunk.calculateAudioLevel (Chunk.of_bytes spiky_chunk) = Ret l1
       /\ Chunk.calculateAudioLevel (Chunk.of_bytes steady_chunk) = Ret l2
       /\ JS.isNaN l1 = false /\ JS.isNaN l2 = false
       /\ JS.ge l1 l2 = true.
Proof.
  apply (level_monotone_in_mean_square
           (Chunk.of_bytes spiky_chunk) (Chunk.of_bytes steady_chunk)
           [0; 5]%Z [3; 3]%Z).
  - apply whole_of_bytes.
  - apply whole_of_bytes.
  - reflexivity.
  - reflexivity.
  - discriminate.
  - discriminate.
  - reflexivity.
  - reflexivity.
  - unfold mean_square_le. simpl. lia.
Defined.

(** ** Several sources, one handler *)

Section Sources.




End Sources.

Section Streams.


Lemma run_app (w : world) (xs ys : list input) :
  run w (xs ++ ys) = run (run w xs) ys.
Proof. apply fold_left_app. Qed.

Lemma receive_all_cons (r : receiver) (e : emission) (rest : list emission) :
  receive_all r (e :: rest) = receive_all (receive r e) rest.
Proof. reflexivity. Qed.

(** The world of the handler is the one its listener calls produce, in
    the order of the emissions. *)
Lemma receive_all_trace (es : list emission) : forall r,
  handling (receive_all r es) = run (handling r) (trace r es).
Proof.
  induction es as [ | e rest IH]; intros r; [reflexivity | ].
  rewrite receive_all_cons, IH. cbn [trace]. now rewrite run_app.
Qed.






End Streams.




(** ** Teardown *)

Section Teardown.

(** Teardown changes nothing but [currentConnection] and the registry. *)
Lemma teardown_step (w : world) (i : input) :
  teardown i = true ->
  isSpeaking (this (step w i)) = isSpeaking (this w)
  /\ consecutiveNoiseFrames (this (step w i)) = consecutiveNoiseFrames (this w)
  /\ silenceTimer (this (step w i)) = silenceTimer (this w)
  /\ timers (step w i) = timers w
  /\ clock (step w i) = clock w
  /\ emitted (step w i) = emitted w.
Proof.
  destruct i as [u | u | u chunk | u | | | ms | t]; try discriminate;
    intros _; cbn [step].
  - repeat split.
  - repeat split.
  - unfold disconnect. destruct (voiceConnection w); repeat split.
Qed.

(** A pending timer fires once its delay has elapsed. *)
Lemma timer_fires_when_due (w : world) (t : Timeout) (due ms : nat) :
  timers w = [(t, due)] -> due <= clock w + ms ->
  emitted (run w [elapse ms; timer_fires t]) = emitted w ++ [realSpeechEnd]
  /\ isCurrentlySpeaking (run w [elapse ms; timer_fires t]) = false.
Proof.
  intros Htm Hdue. rewrite !run_cons, run_nil. cbn [step].
  unfold onTimeout, timer_due. cbn [timers clock]. rewrite Htm.
  apply Nat.leb_le in Hdue.
  cbn [existsb fst snd]. rewrite Nat.eqb_refl, Hdue.
  split; reflexivity.
Qed.

End Teardown.

(** C2, as stated, fails: the handler is speaking with the countdown
    pending when [disconnect] destroys the connection; the timer stays
    pending, and once 500 ms have elapsed it fires and [realSpeechEnd] is
    emitted.  The same holds for the [Destroyed] status and for the end of
    the stream. *)
Lemma teardown_counterexample :
  let w := speaking_with_countdown in
  (reachable w /\ isSpeaking (this w) = true /\ silenceTimer (this w) = Some 0)
  /\ fst (disconnect w) = true
  /\ timers (snd (disconnect w)) = [(0, 500)]
  /\ emitted (step w call_disconnect) = [realSpeechStart]
  /\ emitted (run w [call_disconnect; elapse 500; timer_fires 0])
     = [realSpeechStart; realSpeechEnd]
  /\ emitted (run w [connection_destroyed; elapse 500; timer_fires 0])
     = [realSpeechStart; realSpeechEnd]
  /\ emitted (run w [stream_end "a"%string; elapse 500; timer_fires 0])
     = [realSpeechStart; realSpeechEnd].
Proof.
  intros w. split.
  - split; [ | split; reflexivity].
    exists 0. eexists. apply speaking_with_countdown_reachable.
  - repeat split.
Qed.

(** C2, amended.  Teardown (the end of a stream, the destruction of the
    connection, [disconnect]) leaves [isSpeaking], [consecutiveNoiseFrames],
    [silenceTimer] and the pending timer as they were and emits nothing; the
    timer is not cancelled, and once its delay has elapsed it fires, emits
    [realSpeechEnd] and leaves the handler Idle. *)
Theorem teardown_keeps_countdown (w : world) (t : Timeout) (i : input) :
  reachable w -> silenceTimer (this w) = Some t -> teardown i = true ->
  let w' := step w i in
  isSpeaking (this w') = true
  /\ consecutiveNoiseFrames (this w') = consecutiveNoiseFrames (this w)
  /\ silenceTimer (this w') = Some t
  /\ emitted w' = emitted w
  /\ exists due,
       timers w = [(t, due)] /\ timers w' = [(t, due)]
       /\ forall ms, due <= clock w + ms ->
            emitted (run w' [elapse ms; timer_fires t])
            = emitted w ++ [realSpeechEnd]
            /\ isCurrentlySpeaking (run w' [elapse ms; timer_fires t]) = false.
Proof.
  intros Hr Ht Hi w'.
  destruct (inv_reachable w Hr) as [Hti _]. unfold timer_inv in Hti.
  rewrite Ht in Hti. destruct Hti as [Hsp [due Htm]].
  destruct (teardown_step w i Hi) as (E1 & E2 & E3 & E4 & E5 & E6).
  fold w' in E1, E2, E3, E4, E5, E6.
  repeat split; try congruence.
  exists due. split; [exact Htm | ]. split; [congruence | ].
  intros ms Hdue. rewrite <- E6.
  apply (timer_fires_when_due w' t due ms); congruence.
Qed.

Lemma teardown_keeps_countdown_witness :
  let w' := step speaking_with_countdown call_disconnect in
  isSpeaking (this w') = true
  /\ consecutiveNoiseFrames (this w') = 0
  /\ silenceTimer (this w') = Some 0
  /\ emitted w' = [realSpeechStart]
  /\ exists due,
       timers speaking_with_countdown = [(0, due)] /\ timers w' = [(0, due)]
       /\ forall ms, due <= 0 + ms ->
            emitted (run w' [elapse ms; timer_fires 0])
            = [realSpeechStart] ++ [realSpeechEnd]
            /\ isCurrentlySpeaking (run w' [elapse ms; timer_fires 0]) = false.
Proof.
  apply (teardown_keeps_countdown speaking_with_countdown 0 call_disconnect).
  - exists 0. eexists. apply speaking_with_countdown_reachable.
  - reflexivity.
  - reflexivity.
Defined.

(** * Further properties *)

(** ** The view of the buffer *)

Section View.

Local Open Scope Z_scope.

Lemma byte_range (b : byte) : 0 <= Z.of_N (Byte.to_N b) <= 255.
Proof. pose proof (Byte.to_N_bounded b). lia. Qed.

Lemma land_low_high (a b : Z) : 0 <= a < 256 -> Z.land a (b * 2 ^ 8) = 0.
Proof.
  intros Ha. apply Z.bits_inj'. intros n Hn.
  rewrite Z.land_spec, Z.bits_0.
  destruct (Z.ltb_spec n 8) as [Hlt | Hge].
  - rewrite Z.mul_pow2_bits_low by lia. apply andb_false_r.
  - destruct (Z.eq_dec a 0) as [-> | Hnz]; [now rewrite Z.bits_0 | ].
    rewrite (Z.bits_above_log2 a n); [reflexivity | lia | ].
    assert (Z.log2 a < 8) by (apply Z.log2_lt_pow2; [lia | simpl; lia]).
    lia.
Qed.

Lemma int16_unsigned (lo hi : byte) :
  Z.lor (Z.of_N (Byte.to_N lo)) (Z.shiftl (Z.of_N (Byte.to_N hi)) 8)
  = Z.of_N (Byte.to_N lo) + 256 * Z.of_N (Byte.to_N hi).
Proof.
  pose proof (byte_range lo) as Hlo.
  rewrite Z.shiftl_mul_pow2 by lia.
  rewrite <- Z.lxor_lor by (apply land_low_high; lia).
  rewrite <- Z.add_nocarry_lxor by (apply land_low_high; lia).
  change (2 ^ 8) with 256. lia.
Qed.

End View.

(** ** The thresholds in integers *)

Section Decibels.

Local Open Scope R_scope.

(** [20 * log10 x] against [-20 * a / b], without logarithms. *)
Lemma decibel_gt_iff (x : R) (a b : nat) :
  0 < x -> (0 < b)%nat ->
  - (20 * INR a / INR b) < 20 * (ln x / ln 10) <-> 1 < 10 ^ a * x ^ b.
Proof.
  intros Hx Hb.
  pose proof ln_10_pos as HL.
  assert (HB : 0 < INR b) by (apply lt_0_INR; exact Hb).
  assert (Hp : 0 < 10 ^ a * x ^ b)
    by (apply Rmult_lt_0_compat; apply pow_lt; lra).
  assert (Hln : ln (10 ^ a * x ^ b) = INR a * ln 10 + INR b * ln x).
  { rewrite ln_mult by (apply pow_lt; lra).
    rewrite !ln_pow by lra. reflexivity. }
  assert (E : 20 * (ln x / ln 10) + 20 * INR a / INR b
              = 20 / (ln 10 * INR b) * (INR a * ln 10 + INR b * ln x))
    by (field; lra).
  assert (Hc : 0 < 20 / (ln 10 * INR b)).
  { apply Rdiv_lt_0_compat; [lra | now apply Rmult_lt_0_compat]. }
  split; intros H.
  - apply ln_lt_inv; [lra | exact Hp | ].
    rewrite ln_1, Hln.
    apply Rmult_lt_reg_l with (r := 20 / (ln 10 * INR b)); [exact Hc | ].
    rewrite Rmult_0_r, <- E. lra.
  - apply (ln_increasing 1) in H; [ | lra].
    rewrite ln_1, Hln in H.
    pose proof (Rmult_lt_0_compat _ _ Hc H) as Hm.
    rewrite <- E in Hm. lra.
Qed.

Lemma amplitude_square (q : R) :
  0 <= q -> (sqrt q / 32768) ^ 2 = q / 1073741824.
Proof.
  intros Hq. unfold Rdiv. rewrite Rpow_mult_distr, pow2_sqrt by exact Hq.
  field.
Qed.

Lemma mean_square_pos (samples : list Z) :
  samples <> [] -> (0 < sum_squares samples)%Z ->
  0 < IZR (sum_squares samples) / IZR (Z.of_nat (List.length samples)).
Proof.
  intros Hne Hs. apply Rdiv_lt_0_compat;
    [now apply IZR_lt | now apply length_pos_IZR].
Qed.

Lemma above_noise_sound (samples : list Z) :
  samples <> [] -> (0 < sum_squares samples)%Z ->
  JS.gt (level_of_samples samples) NOISE_THRESHOLD = true
  <-> (2 ^ 30 * Z.of_nat (List.length samples)
       < 10 ^ 5 * sum_squares samples)%Z.
Proof.
  intros Hne Hs.
  pose proof (mean_square_pos samples Hne Hs) as Hq.
  pose proof (length_pos_IZR samples Hne) as Hn.
  rewrite (level_of_sound samples Hne Hs). unfold NOISE_THRESHOLD.
  rewrite gt_Fin.
  replace (-50) with (- (20 * INR 5 / INR 2)) by (simpl; lra).
  rewrite decibel_gt_iff;
    [ | apply Rdiv_lt_0_compat; [now apply sqrt_lt_R0 | lra] | lia].
  rewrite amplitude_square by lra.
  split; intros H.
  - apply lt_IZR. rewrite !mult_IZR.
    change (IZR (2 ^ 30)) with 1073741824. change (IZR (10 ^ 5)) with 100000.
    replace (10 ^ 5) with 100000 in H by (simpl; lra).
    apply Rmult_lt_compat_r with (r := IZR (Z.of_nat (List.length samples)))
      in H; [ | exact Hn].
    field_simplify in H; lra.
  - apply IZR_lt in H. rewrite !mult_IZR in H.
    change (IZR (2 ^ 30)) with 1073741824 in H.
    change (IZR (10 ^ 5)) with 100000 in H.
    replace (10 ^ 5) with 100000 by (simpl; lra).
    apply Rmult_lt_reg_r with (r := IZR (Z.of_nat (List.length samples)));
      [exact Hn | ].
    field_simplify; lra.
Qed.

Lemma above_speech_sound (samples : list Z) :
  samples <> [] -> (0 < sum_squares samples)%Z ->
  JS.gt (level_of_samples samples) SPEECH_THRESHOLD = true
  <-> (2 ^ 60 * Z.of_nat (List.length samples) ^ 2
       < 10 ^ 7 * sum_squares samples ^ 2)%Z.
Proof.
  intros Hne Hs.
  pose proof (mean_square_pos samples Hne Hs) as Hq.
  pose proof (length_pos_IZR samples Hne) as Hn.
  rewrite (level_of_sound samples Hne Hs). unfold SPEECH_THRESHOLD.
  rewrite gt_Fin.
  replace (-35) with (- (20 * INR 7 / INR 4)) by (simpl; lra).
  rewrite decibel_gt_iff;
    [ | apply Rdiv_lt_0_compat; [now apply sqrt_lt_R0 | lra] | lia].
  assert (P4 : forall y : R, y ^ 4 = (y ^ 2) ^ 2) by (intros y; ring).
  rewrite P4, amplitude_square by lra.
  set (S := IZR (sum_squares samples)) in *.
  set (N := IZR (Z.of_nat (List.length samples))) in *.
  assert (E : 10 ^ 7 * (S / N / 1073741824) ^ 2
              = 10000000 * (S * S) / (1152921504606846976 * (N * N)))
    by (field; lra).
  assert (HD : 0 < 1152921504606846976 * (N * N)) by nra.
  assert (HZ : (2 ^ 60 * Z.of_nat (List.length samples) ^ 2
                < 10 ^ 7 * sum_squares samples ^ 2)%Z
               <-> 1152921504606846976 * (N * N) < 10000000 * (S * S)).
  { unfold S, N. rewrite <- !mult_IZR, !Z.pow_2_r.
    change (2 ^ 60)%Z with 1152921504606846976%Z.
    change (10 ^ 7)%Z with 10000000%Z.
    split; [apply IZR_lt | apply lt_IZR]. }
  rewrite HZ, E. split; intros H.
  - apply Rmult_lt_compat_r with (r := 1152921504606846976 * (N * N)) in H;
      [ | exact HD].
    unfold Rdiv in H. rewrite Rmult_assoc, Rinv_l in H; lra.
  - apply Rmult_lt_reg_r with (r := 1152921504606846976 * (N * N));
      [exact HD | ].
    unfold Rdiv. rewrite Rmult_assoc, Rinv_l; lra.
Qed.

End Decibels.

(** In exact arithmetic the level exceeds [NOISE_THRESHOLD] exactly when
    10^5 times the sum of the squares exceeds 2^30 times the number of
    samples. *)
Lemma above_noise_exact (samples : list Z) :
  JS.gt (level_of_samples samples) NOISE_THRESHOLD = above_noise samples.
Proof.
  unfold above_noise. apply Bool.eq_iff_eq_true. rewrite Z.ltb_lt.
  pose proof (sum_squares_nonneg samples) as Hs.
  destruct samples as [ | s rest].
  - rewrite level_of_empty. split; [discriminate | simpl; lia].
  - assert (Hne : s :: rest <> []) by discriminate.
    assert (C : sum_squares (s :: rest) = 0%Z \/ (0 < sum_squares (s :: rest))%Z)
      by lia.
    destruct C as [Z0 | P].
    + rewrite (level_of_silence _ Hne Z0), Z0.
      split; [discriminate | simpl List.length; lia].
    + exact (above_noise_sound _ Hne P).
Qed.

(** In exact arithmetic the level exceeds [SPEECH_THRESHOLD] exactly when
    10^7 times the square of the sum of the squares exceeds 2^60 times the
    square of the number of samples. *)
Lemma above_speech_exact (samples : list Z) :
  JS.gt (level_of_samples samples) SPEECH_THRESHOLD = above_speech samples.
Proof.
  unfold above_speech. apply Bool.eq_iff_eq_true. rewrite Z.ltb_lt.
  pose proof (sum_squares_nonneg samples) as Hs.
  destruct samples as [ | s rest].
  - rewrite level_of_empty. split; [discriminate | simpl; lia].
  - assert (Hne : s :: rest <> []) by discriminate.
    assert (C : sum_squares (s :: rest) = 0%Z \/ (0 < sum_squares (s :: rest))%Z)
      by lia.
    destruct C as [Z0 | P].
    + rewrite (level_of_silence _ Hne Z0), Z0.
      split; [discriminate | simpl List.length; lia].
    + exact (above_speech_sound _ Hne P).
Qed.

(** ** The values of the meter *)

Section MeterValues.

Local Open Scope Z_scope.

Lemma int16_in_range (lo hi : byte) : int16_range (int16 lo hi).
Proof.
  unfold int16_range, int16. rewrite int16_unsigned.
  pose proof (byte_range lo). pose proof (byte_range hi).
  destruct (Z.ltb_spec (Z.of_N (Byte.to_N lo) + 256 * Z.of_N (Byte.to_N hi))
              32768); lia.
Qed.

Lemma byte_zero (b : byte) : Z.of_N (Byte.to_N b) = 0 -> b = x00.
Proof.
  intros H. assert (E : Byte.to_N b = Byte.to_N x00) by (simpl; lia).
  pose proof (Byte.of_to_N b) as Hb. rewrite E in Hb. simpl in Hb. congruence.
Qed.

Lemma int16_zero (lo hi : byte) : int16 lo hi = 0 <-> lo = x00 /\ hi = x00.
Proof.
  split.
  - unfold int16. rewrite int16_unsigned.
    pose proof (byte_range lo). pose proof (byte_range hi).
    destruct (Z.ltb_spec (Z.of_N (Byte.to_N lo) + 256 * Z.of_N (Byte.to_N hi))
                32768); intros E; split; apply byte_zero; lia.
  - intros [-> ->]. reflexivity.
Qed.

Lemma Int16Array_range (buffer : list byte) : forall samples,
  Int16Array buffer = Ret samples -> Forall int16_range samples.
Proof.
  induction buffer as [ | a | lo hi rest IH] using list_pair_ind;
    intros samples H; simpl in H.
  - injection H as <-. constructor.
  - discriminate.
  - destruct (Int16Array rest) as [tail | e]; [ | discriminate].
    injection H as <-. constructor; [apply int16_in_range | now apply IH].
Qed.

Lemma Int16Array_zeros (buffer : list byte) : forall samples,
  Int16Array buffer = Ret samples ->
  Forall (fun s => s = 0) samples <-> Forall (fun b => b = x00) buffer.
Proof.
  induction buffer as [ | a | lo hi rest IH] using list_pair_ind;
    intros samples H; simpl in H.
  - injection H as <-. split; constructor.
  - discriminate.
  - destruct (Int16Array rest) as [tail | e]; [ | discriminate].
    injection H as <-. specialize (IH tail eq_refl). split; intros F.
    + inversion F as [ | ? ? Hz Ft]; subst.
      apply int16_zero in Hz as [-> ->].
      repeat constructor. now apply IH.
    + inversion F as [ | ? ? -> F1]; subst.
      inversion F1 as [ | ? ? -> F2]; subst.
      constructor; [reflexivity | now apply IH].
Qed.

Lemma fold_squares_zero (samples : list Z) : forall acc,
  0 <= acc ->
  fold_left (fun sum s => sum + s * s) samples acc = 0
  <-> acc = 0 /\ Forall (fun s => s = 0) samples.
Proof.
  induction samples as [ | s rest IH]; intros acc Hacc; simpl.
  - split; [intros ->; split; constructor | tauto].
  - rewrite IH by nia. split.
    + intros [E F]. assert (s = 0) by nia. subst s.
      split; [lia | now constructor].
    + intros [-> F]. inversion F; subst. split; [reflexivity | assumption].
Qed.

Lemma sum_squares_zero (samples : list Z) :
  sum_squares samples = 0 <-> Forall (fun s => s = 0) samples.
Proof.
  unfold sum_squares. rewrite fold_squares_zero by lia. tauto.
Qed.

Lemma fold_squares_bound (samples : list Z) : forall acc,
  Forall int16_range samples ->
  fold_left (fun sum s => sum + s * s) samples acc
  <= acc + 2 ^ 30 * Z.of_nat (List.length samples).
Proof.
  induction samples as [ | s rest IH]; intros acc F.
  - simpl. lia.
  - inversion F as [ | ? ? Hs Fr]; subst. unfold int16_range in Hs.
    cbn [fold_left]. specialize (IH (acc + s * s) Fr).
    change (List.length (s :: rest)) with (S (List.length rest)).
    rewrite Nat2Z.inj_succ. change (2 ^ 30) with 1073741824 in *. nia.
Qed.

Lemma sum_squares_bound (samples : list Z) :
  Forall int16_range samples ->
  sum_squares samples <= 2 ^ 30 * Z.of_nat (List.length samples).
Proof. intros F. apply (fold_squares_bound samples 0 F). Qed.

End MeterValues.

(** The view throws exactly on a content of odd length. *)
Lemma throws_iff_odd_content (chunk : list byte) :
  (exists e, calculateAudioLevel chunk = Throw e)
  <-> Nat.odd (List.length chunk) = true.
Proof.
  unfold calculateAudioLevel.
  pose proof (Int16Array_parity chunk) as P.
  destruct (Nat.odd (List.length chunk)).
  - rewrite P. split; [reflexivity | eauto].
  - destruct P as (samples & -> & _).
    split; [intros [e H]; discriminate | discriminate].
Qed.

(** The level is NaN for the empty content and for no other. *)
Lemma NaN_iff_empty_content (chunk : list byte) :
  calculateAudioLevel chunk = Ret NaN <-> chunk = [].
Proof.
  split.
  - unfold calculateAudioLevel.
    destruct (Int16Array chunk) as [samples | e] eqn:E; [ | discriminate].
    intros H. injection H as H.
    destruct samples as [ | s rest]; [now apply Int16Array_empty | ].
    exfalso. assert (Hne : s :: rest <> []) by discriminate.
    pose proof (sum_squares_nonneg (s :: rest)) as Hs.
    assert (C : sum_squares (s :: rest) = 0%Z \/ (0 < sum_squares (s :: rest))%Z)
      by lia.
    destruct C as [Z0 | P].
    + rewrite (level_of_silence _ Hne Z0) in H. discriminate.
    + rewrite (level_of_sound _ Hne P) in H. discriminate.
  - intros ->. unfold calculateAudioLevel. cbn [Int16Array].
    now rewrite level_of_empty.
Qed.

(** The level is [-Infinity] exactly for the non-empty contents of even
    length whose bytes are all zero. *)
Lemma NegInf_iff_zero_content (chunk : list byte) :
  calculateAudioLevel chunk = Ret NegInf
  <-> chunk <> [] /\ Nat.odd (List.length chunk) = false
      /\ Forall (fun b => b = x00) chunk.
Proof.
  unfold calculateAudioLevel.
  pose proof (Int16Array_parity chunk) as P.
  destruct (Nat.odd (List.length chunk)).
  - rewrite P. split; [discriminate | intros (_ & H & _); discriminate].
  - destruct P as (samples & E & Hlen). rewrite E.
    pose proof (Int16Array_zeros chunk samples E) as Hz.
    pose proof (sum_squares_nonneg samples) as Hs.
    destruct samples as [ | s rest].
    + apply Int16Array_empty in E. subst chunk. rewrite level_of_empty.
      split; [discriminate | intros (H & _); congruence].
    + assert (Hne : s :: rest <> []) by discriminate.
      assert (Hc : chunk <> []) by (intros ->; simpl in Hlen; lia).
      assert (C : sum_squares (s :: rest) = 0%Z
                  \/ (0 < sum_squares (s :: rest))%Z) by lia.
      destruct C as [Z0 | Pos].
      * rewrite (level_of_silence _ Hne Z0).
        apply sum_squares_zero in Z0. apply Hz in Z0. tauto.
      * rewrite (level_of_sound _ Hne Pos).
        split; [discriminate | ].
        intros (_ & _ & F). apply Hz, sum_squares_zero in F. lia.
Qed.

(** X4.  A level is never above 0 dB and never [+Infinity]: full scale is
    the loudest a frame can be. *)
Theorem level_at_most_full_scale (chunk : list byte) :
  match calculateAudioLevel chunk with
  | Ret (Fin r) => (r <= 0)%R
  | Ret PosInf => False
  | _ => True
  end.
Proof.
  unfold calculateAudioLevel.
  destruct (Int16Array chunk) as [samples | e] eqn:E; [ | exact I].
  pose proof (sum_squares_nonneg samples) as Hs.
  pose proof (sum_squares_bound samples (Int16Array_range _ _ E)) as Hb.
  destruct samples as [ | s rest]; [now rewrite level_of_empty | ].
  assert (Hne : s :: rest <> []) by discriminate.
  assert (C : sum_squares (s :: rest) = 0%Z \/ (0 < sum_squares (s :: rest))%Z)
    by lia.
  destruct C as [Z0 | P]; [now rewrite (level_of_silence _ Hne Z0) | ].
  rewrite (level_of_sound _ Hne P).
  pose proof (mean_square_pos _ Hne P) as Hq.
  pose proof (length_pos_IZR _ Hne) as Hn.
  pose proof ln_10_pos as HL.
  set (q := (IZR (sum_squares (s :: rest))
             / IZR (Z.of_nat (List.length (s :: rest))))%R) in *.
  assert (Hq1 : (q <= 32768 * 32768)%R).
  { apply IZR_le in Hb. rewrite mult_IZR in Hb.
    change (IZR (2 ^ 30)) with 1073741824%R in Hb. unfold q.
    apply Rmult_le_reg_r
      with (r := IZR (Z.of_nat (List.length (s :: rest)))); [exact Hn | ].
    unfold Rdiv. rewrite Rmult_assoc, Rinv_l; lra. }
  assert (Hsq : (sqrt q <= 32768)%R).
  { rewrite <- (sqrt_square 32768) by lra. now apply sqrt_le_1_alt. }
  pose proof (sqrt_lt_R0 q Hq) as Hpos.
  assert (Hln : (ln (sqrt q / 32768) <= 0)%R).
  { rewrite <- ln_1. apply ln_le_compat; [lra | ].
    apply Rmult_le_reg_r with (r := 32768%R); [lra | ].
    unfold Rdiv. rewrite Rmult_assoc, Rinv_l; lra. }
  assert (Hd : (ln (sqrt q / 32768) / ln 10 <= 0)%R).
  { unfold Rdiv. rewrite <- (Rmult_0_l (/ ln 10)).
    apply Rmult_le_compat_r; [ | exact Hln].
    left. now apply Rinv_0_lt_compat. }
  lra.
Qed.

(** ** What one frame can do *)

Section FrameEffects.

Lemma frame_cases (l : number) (w : world) :
  (JS.gt l NOISE_THRESHOLD = false)
  \/ (JS.gt l NOISE_THRESHOLD = true
      /\ JS.gt l SPEECH_THRESHOLD
         && (REQUIRED_NOISE_FRAMES <=? S (consecutiveNoiseFrames (this w)))
         = false)
  \/ (JS.gt l SPEECH_THRESHOLD = true
      /\ REQUIRED_NOISE_FRAMES <= S (consecutiveNoiseFrames (this w))).
Proof.
  destruct (JS.gt l NOISE_THRESHOLD); [ | now left]. right.
  destruct (JS.gt l SPEECH_THRESHOLD); [ | left; auto].
  destruct (Nat.leb_spec REQUIRED_NOISE_FRAMES
              (S (consecutiveNoiseFrames (this w)))); [right | left]; auto.
Qed.

Lemma frame_effect (l : number) (w : world) :
  let w' := processAudioLevel l w in
  if isSpeaking (this w)
  then isSpeaking (this w') = true /\ emitted w' = emitted w
  else (isSpeaking (this w') = false /\ emitted w' = emitted w)
       \/ (isSpeaking (this w') = true
           /\ emitted w' = emitted w ++ [realSpeechStart]
           /\ JS.gt l SPEECH_THRESHOLD = true
           /\ REQUIRED_NOISE_FRAMES <= consecutiveNoiseFrames (this w')).
Proof.
  intros w'. subst w'.
  destruct (frame_cases l w) as [Hq | [[Hn Hc] | [Hs Hc]]].
  - rewrite (processAudioLevel_quiet l w Hq).
    destruct (isSpeaking (this w)) eqn:Hsp.
    + destruct (silenceTimer (this w)); cbn; rewrite ?Hsp; auto.
    + cbn. rewrite Hsp. auto.
  - rewrite (processAudioLevel_counting l w Hn Hc). cbn.
    destruct (isSpeaking (this w)); auto.
  - rewrite (processAudioLevel_speech l w Hs Hc).
    destruct (isSpeaking (this w)) eqn:Hsp.
    + destruct (silenceTimer (this w)); cbn; rewrite ?Hsp; auto.
    + right. destruct (silenceTimer (this w)); cbn; auto.
Qed.

End FrameEffects.

(** ** Sequences of frames *)

Section FrameSequences.

Lemma frames_cons (l : number) (rest : list number) (w : world) :
  frames (l :: rest) w = frames rest (processAudioLevel l w).
Proof. reflexivity. Qed.

Lemma frames_app (xs ys : list number) (w : world) :
  frames (xs ++ ys) w = frames ys (frames xs w).
Proof. apply fold_left_app. Qed.

Lemma inv_frames (levels : list number) : forall w,
  inv w -> inv (frames levels w).
Proof.
  induction levels as [ | l rest IH]; intros w H; [exact H | ].
  rewrite frames_cons. now apply IH, inv_processAudioLevel.
Qed.

Lemma summary_frame (l : number) (w : world) :
  summary w (processAudioLevel l w).
Proof.
  unfold summary. pose proof (frame_effect l w) as H. cbv zeta in H.
  destruct (isSpeaking (this w)).
  - destruct H as [-> ->]. now rewrite app_nil_r.
  - destruct H as [[-> ->] | (-> & -> & _)];
      [now rewrite app_nil_r | ]; split; [discriminate | reflexivity].
Qed.

Lemma summary_trans (a b c : world) :
  summary a b -> summary b c -> summary a c.
Proof.
  unfold summary. intros [Hab Eab] [Hbc Ebc]. rewrite Ebc, Eab.
  destruct (isSpeaking (this a)), (isSpeaking (this b)),
    (isSpeaking (this c)); simpl in *;
    rewrite ?app_nil_r; auto; try (split; [auto | reflexivity]);
    try (now specialize (Hab eq_refl)); try (now specialize (Hbc eq_refl)).
Qed.

Lemma summary_frames (levels : list number) : forall w,
  summary w (frames levels w).
Proof.
  induction levels as [ | l rest IH]; intros w.
  - unfold summary. simpl. destruct (isSpeaking (this w)); simpl;
      now rewrite app_nil_r.
  - rewrite frames_cons.
    exact (summary_trans _ _ _ (summary_frame l w) (IH _)).
Qed.

(** An above-noise frame adds one to the counter, any other frame clears
    it. *)
Lemma counter_after_frame (l : number) (w : world) :
  consecutiveNoiseFrames (this (processAudioLevel l w))
  = if JS.gt l NOISE_THRESHOLD then S (consecutiveNoiseFrames (this w)) else 0.
Proof.
  destruct (frame_cases l w) as [Hq | [[Hn Hc] | [Hs Hc]]].
  - rewrite (processAudioLevel_quiet l w Hq), Hq.
    destruct (isSpeaking (this w)); [ | reflexivity].
    destruct (silenceTimer (this w)); reflexivity.
  - now rewrite (processAudioLevel_counting l w Hn Hc), Hn.
  - rewrite (processAudioLevel_speech l w Hs Hc), (gt_speech_gt_noise _ Hs).
    destruct (isSpeaking (this w)), (silenceTimer (this w)); reflexivity.
Qed.

Lemma counter_after_louds (louds : list number) : forall w,
  Forall (fun l => JS.gt l NOISE_THRESHOLD = true) louds ->
  consecutiveNoiseFrames (this (frames louds w))
  = consecutiveNoiseFrames (this w) + List.length louds.
Proof.
  induction louds as [ | l rest IH]; intros w F.
  - simpl. lia.
  - inversion F as [ | ? ? Hl Fr]; subst.
    rewrite frames_cons, (IH _ Fr), counter_after_frame, Hl. simpl. lia.
Qed.

End FrameSequences.

(** X7.  No sequence of frames ends speech or emits [realSpeechEnd]: a
    speaking handler is still speaking after it, and what the frames emit is
    one [realSpeechStart] when they take the handler from idle to speaking,
    and nothing otherwise. *)
Theorem frames_never_end_speech (levels : list number) (w : world) :
  let w' := frames levels w in
  (isSpeaking (this w) = true -> isSpeaking (this w') = true)
  /\ emitted w'
     = emitted w
       ++ (if negb (isSpeaking (this w)) && isSpeaking (this w')
           then [realSpeechStart] else []).
Proof. exact (summary_frames levels w). Qed.

(** X8.  [consecutiveNoiseFrames] is the length of the run of frames above
    the noise floor since the last frame at or below it (or with a NaN
    level), whatever came before. *)
Theorem counter_is_trailing_run
  (w : world) (before louds : list number) (quiet : number) :
  JS.gt quiet NOISE_THRESHOLD = false ->
  Forall (fun l => JS.gt l NOISE_THRESHOLD = true) louds ->
  consecutiveNoiseFrames (this (frames (before ++ quiet :: louds) w))
  = List.length louds.
Proof.
  intros Hq F.
  rewrite frames_app, frames_cons, (counter_after_louds louds _ F).
  now rewrite counter_after_frame, Hq.
Qed.

Lemma counter_is_trailing_run_witness :
  consecutiveNoiseFrames
    (this (frames ([Fin 0; Fin (-10)] ++ NaN :: [Fin (-40); Fin (-20)])
             (initial 0)))
  = 2.
Proof.
  apply (counter_is_trailing_run (initial 0) [Fin 0; Fin (-10)]
           [Fin (-40); Fin (-20)] NaN).
  - reflexivity.
  - repeat constructor; js_cmp.
Defined.

(** X9.  A burst too short to bring the counter to [REQUIRED_NOISE_FRAMES]
    never starts speech, however loud it is: an idle handler stays idle and
    emits nothing. *)
Theorem short_burst_emits_nothing (levels : list number) (w : world) :
  isSpeaking (this w) = false ->
  consecutiveNoiseFrames (this w) + List.length levels < REQUIRED_NOISE_FRAMES ->
  isSpeaking (this (frames levels w)) = false
  /\ emitted (frames levels w) = emitted w.
Proof.
  revert w. induction levels as [ | l rest IH]; intros w Hsp Hc.
  - now split.
  - rewrite frames_cons. simpl List.length in Hc.
    pose proof (frame_effect l w) as H. cbv zeta in H. rewrite Hsp in H.
    pose proof (counter_after_frame l w) as Hn.
    destruct H as [[Hsp' He] | (_ & _ & _ & Hreq)].
    + rewrite <- He. apply IH; [exact Hsp' | ].
      destruct (JS.gt l NOISE_THRESHOLD); lia.
    + exfalso. destruct (JS.gt l NOISE_THRESHOLD); lia.
Qed.

Lemma short_burst_emits_nothing_witness :
  isSpeaking (this (frames [Fin 0; Fin (-3)] (initial 0))) = false
  /\ emitted (frames [Fin 0; Fin (-3)] (initial 0)) = [].
Proof.
  apply (short_burst_emits_nothing [Fin 0; Fin (-3)] (initial 0)).
  - reflexivity.
  - unfold REQUIRED_NOISE_FRAMES. simpl. lia.
Defined.

(** X10.  Three consecutive frames, the first two above the noise floor
    and the third above the speech floor, always end in speech with no
    countdown pending: from idle they emit exactly one [realSpeechStart],
    from speaking they emit nothing and cancel any countdown. *)
Theorem three_frames_confirm_speech (w : world) (l1 l2 l3 : number) :
  reachable w ->
  JS.gt l1 NOISE_THRESHOLD = true -> JS.gt l2 NOISE_THRESHOLD = true ->
  JS.gt l3 SPEECH_THRESHOLD = true ->
  let w' := frames [l1; l2; l3] w in
  isSpeaking (this w') = true
  /\ silenceTimer (this w') = None
  /\ timers w' = []
  /\ emitted w'
     = if isSpeaking (this w) then emitted w
       else emitted w ++ [realSpeechStart].
Proof.
  intros Hr H1 H2 H3 w'.
  assert (Hsum : isSpeaking (this w') = true -> emitted w'
            = if isSpeaking (this w) then emitted w
              else emitted w ++ [realSpeechStart]).
  { intros Hsp. destruct (summary_frames [l1; l2; l3] w) as [_ E].
    fold w' in E. rewrite E, Hsp.
    destruct (isSpeaking (this w)); simpl; now rewrite ?app_nil_r. }
  assert (Hlast : isSpeaking (this w') = true
                  /\ silenceTimer (this w') = None /\ timers w' = []).
  { subst w'. change (frames [l1; l2; l3] w)
      with (processAudioLevel l3 (frames [l1; l2] w)).
    assert (Hc : REQUIRED_NOISE_FRAMES
                 <= S (consecutiveNoiseFrames (this (frames [l1; l2] w)))).
    { rewrite (counter_after_louds [l1; l2] w)
        by (repeat constructor; assumption).
      unfold REQUIRED_NOISE_FRAMES. simpl. lia. }
    destruct (inv_frames [l1; l2] w (inv_reachable w Hr)) as [Hti _].
    unfold timer_inv in Hti.
    remember (frames [l1; l2] w) as w2 eqn:Ew2. clear Ew2 Hsum.
    rewrite (processAudioLevel_speech l3 w2 H3 Hc).
    destruct (silenceTimer (this w2)) as [t | ] eqn:Hst.
    - destruct Hti as [Hsp [due Htm]]. rewrite Hsp. cbn.
      rewrite Htm, filter_single. auto.
    - destruct (isSpeaking (this w2)) eqn:Hsp2; cbn;
        rewrite ?Hst, ?Hti, ?Hsp2; auto. }
  destruct Hlast as (Hsp & Hst & Htm). auto.
Qed.

Lemma three_frames_confirm_speech_witness :
  let w' := frames [Fin (-40); Fin (-45); Fin (-30)] speaking_with_countdown in
  isSpeaking (this w') = true
  /\ silenceTimer (this w') = None
  /\ timers w' = []
  /\ emitted w' = [realSpeechStart].
Proof.
  apply (three_frames_confirm_speech speaking_with_countdown
           (Fin (-40)) (Fin (-45)) (Fin (-30))).
  - exists 0. eexists. apply speaking_with_countdown_reachable.
  - js_cmp.
  - js_cmp.
  - js_cmp.
Defined.

(** ** The silence countdown *)

Section Countdown.

Lemma counting_down_step t due log (w : world) (i : input) :
  counting_down t due log w -> waiting_input i = true ->
  counting_down t due log (step w i) /\ clock w <= clock (step w i).
Proof.
  unfold counting_down, waiting_input.
  intros (Htm & Hst & Hsp & Hem) Hw.
  apply andb_true_iff in Hw as [Hq Hnf].
  destruct i as [u | u | u chunk | u | | | ms | t']; cbn [step];
    try discriminate Hnf; auto.
  - unfold onData. simpl in Hq.
    destruct (calculateAudioLevel chunk) as [l | e]; [ | auto].
    apply negb_true_iff in Hq.
    rewrite (processAudioLevel_quiet l w Hq), Hsp, Hst. cbn. auto.
  - unfold disconnect. destruct (voiceConnection w); cbn; auto.
  - cbn. repeat split; auto. lia.
Qed.

Lemma counting_down_run t due log (inputs : list input) : forall w,
  counting_down t due log w -> forallb waiting_input inputs = true ->
  counting_down t due log (run w inputs) /\ clock w <= clock (run w inputs).
Proof.
  induction inputs as [ | i rest IH]; intros w Hc Hw; simpl in Hw.
  - rewrite run_nil. auto.
  - apply andb_true_iff in Hw as [Hi Hrest]. rewrite run_cons.
    destruct (counting_down_step t due log w i Hc Hi) as [Hc' Hclk].
    destruct (IH _ Hc' Hrest) as [Hc'' Hclk']. split; [exact Hc'' | lia].
Qed.

Lemma counting_down_start (l : number) (w : world) :
  inv w -> isSpeaking (this w) = true -> silenceTimer (this w) = None ->
  JS.gt l NOISE_THRESHOLD = false ->
  counting_down (fresh w) (clock w + SILENCE_THRESHOLD) (emitted w)
    (processAudioLevel l w)
  /\ clock (processAudioLevel l w) = clock w.
Proof.
  intros [Hti _] Hsp Hst Hq. unfold timer_inv in Hti. rewrite Hst in Hti.
  rewrite (processAudioLevel_quiet l w Hq), Hsp, Hst. unfold counting_down.
  cbn. rewrite Hti. auto.
Qed.

Lemma counting_down_fire t due log (w : world) :
  counting_down t due log w ->
  (clock w < due -> step w (timer_fires t) = w)
  /\ (due <= clock w ->
      emitted (step w (timer_fires t)) = log ++ [realSpeechEnd]
      /\ isSpeaking (this (step w (timer_fires t))) = false
      /\ consecutiveNoiseFrames (this (step w (timer_fires t))) = 0
      /\ silenceTimer (this (step w (timer_fires t))) = None
      /\ timers (step w (timer_fires t)) = []).
Proof.
  intros (Htm & Hst & Hsp & Hem). cbn [step].
  unfold onTimeout, timer_due. rewrite Htm. cbn [existsb fst snd].
  rewrite Nat.eqb_refl, orb_false_r. cbn [andb]. split; intros H.
  - apply Nat.leb_gt in H. now rewrite H.
  - apply Nat.leb_le in H. rewrite H. cbn.
    rewrite Htm, Hem. cbn [filter fst]. rewrite Nat.eqb_refl. auto.
Qed.

End Countdown.

(** X11.  The debounce.  When a speaking handler with no countdown pending
    receives a frame at or below the noise floor, a timer is set for
    [SILENCE_THRESHOLD] ms after that frame; as long as no frame above the
    noise floor arrives, later frames do not restart it and nothing is
    emitted; the timer does nothing before its delay has elapsed, and when
    it fires afterwards it emits one [realSpeechEnd] and leaves the handler
    idle with the counter cleared and no timer. *)
Theorem silence_ends_speech_once
  (w : world) (u : userId) (chunk : list byte) (l : number)
  (inputs : list input) :
  reachable w -> isSpeaking (this w) = true -> silenceTimer (this w) = None ->
  calculateAudioLevel chunk = Ret l -> JS.gt l NOISE_THRESHOLD = false ->
  forallb waiting_input inputs = true ->
  let t := fresh w in
  let due := clock w + SILENCE_THRESHOLD in
  let w1 := run w (stream_data u chunk :: inputs) in
  timers w1 = [(t, due)] /\ silenceTimer (this w1) = Some t
  /\ isSpeaking (this w1) = true /\ emitted w1 = emitted w
  /\ (clock w1 < due -> step w1 (timer_fires t) = w1)
  /\ (due <= clock w1 ->
      emitted (step w1 (timer_fires t)) = emitted w ++ [realSpeechEnd]
      /\ isSpeaking (this (step w1 (timer_fires t))) = false
      /\ consecutiveNoiseFrames (this (step w1 (timer_fires t))) = 0
      /\ silenceTimer (this (step w1 (timer_fires t))) = None
      /\ timers (step w1 (timer_fires t)) = []).
Proof.
  intros Hr Hsp Hst Hl Hq Hw t due w1.
  assert (E : step w (stream_data u chunk) = processAudioLevel l w)
    by (cbn [step]; unfold onData; now rewrite Hl).
  destruct (counting_down_start l w (inv_reachable w Hr) Hsp Hst Hq)
    as [Hc0 _].
  destruct (counting_down_run _ _ _ inputs _ Hc0 Hw) as [Hc1 _].
  rewrite <- E, <- run_cons in Hc1. fold w1 t due in Hc1.
  destruct (counting_down_fire _ _ _ _ Hc1) as [Hearly Hlate].
  destruct Hc1 as (H1 & H2 & H3 & H4). auto 10.
Qed.

Lemma silence_ends_speech_once_witness :
  let w1 := run speaking_no_countdown
              [stream_data "a"%string silent_chunk; elapse 200;
               stream_data "b"%string silent_chunk; elapse 300] in
  timers w1 = [(0, 0 + SILENCE_THRESHOLD)] /\ silenceTimer (this w1) = Some 0
  /\ isSpeaking (this w1) = true /\ emitted w1 = [realSpeechStart]
  /\ (clock w1 < 0 + SILENCE_THRESHOLD -> step w1 (timer_fires 0) = w1)
  /\ (0 + SILENCE_THRESHOLD <= clock w1 ->
      emitted (step w1 (timer_fires 0)) = [realSpeechStart] ++ [realSpeechEnd]
      /\ isSpeaking (this (step w1 (timer_fires 0))) = false
      /\ consecutiveNoiseFrames (this (step w1 (timer_fires 0))) = 0
      /\ silenceTimer (this (step w1 (timer_fires 0))) = None
      /\ timers (step w1 (timer_fires 0)) = []).
Proof.
  apply (silence_ends_speech_once speaking_no_countdown "a"%string
           silent_chunk NegInf
           [elapse 200; stream_data "b"%string silent_chunk; elapse 300]).
  - exists 0. eexists. apply speaking_no_countdown_reachable.
  - reflexivity.
  - reflexivity.
  - apply level_of_silent_chunk.
  - reflexivity.
  - unfold forallb, waiting_input, quiet_input.
    rewrite level_of_silent_chunk. reflexivity.
Defined.

(** ** The query and the log *)

Section LastEvent.

Lemma last_default (A : Type) (l : list A) (d d' : A) :
  l <> [] -> last l d = last l d'.
Proof.
  induction l as [ | a rest IH]; intros Hne; [easy | ].
  destruct rest as [ | b rest']; [reflexivity | ].
  change (last (b :: rest') d = last (b :: rest') d'). now apply IH.
Qed.

Lemma alternates_last (log : list event) : forall expect,
  alternates expect log = true ->
  last log (other expect)
  = if Nat.odd (List.length log) then expect else other expect.
Proof.
  induction log as [ | e rest IH]; intros expect H; [reflexivity | ].
  simpl in H. apply andb_true_iff in H as [He Hrest].
  apply event_eqb_eq in He. subst e. specialize (IH _ Hrest).
  rewrite other_other in IH.
  change (List.length (expect :: rest)) with (S (List.length rest)).
  rewrite Nat.odd_succ, <- Nat.negb_odd.
  destruct rest as [ | b rest']; [reflexivity | ].
  change (last (expect :: b :: rest') (other expect))
    with (last (b :: rest') (other expect)).
  rewrite (last_default _ (b :: rest') (other expect) expect) by discriminate.
  rewrite IH. now destruct (Nat.odd (List.length (b :: rest'))).
Qed.

End LastEvent.

(** X12.  In every state reached from the initial one,
    [isCurrentlySpeaking] tells whether the last emitted event is a
    [realSpeechStart]: the query and the events never disagree. *)
Theorem query_agrees_with_last_event
  (c : VoiceConnection) (inputs : list input) :
  let w := run (initial c) inputs in
  isCurrentlySpeaking w
  = match last (emitted w) realSpeechEnd with
    | realSpeechStart => true
    | realSpeechEnd => false
    end.
Proof.
  intros w.
  destruct (inv_run inputs (initial c) (inv_initial c)) as [_ [Ha Hs]].
  fold w in Ha, Hs. unfold isCurrentlySpeaking. rewrite Hs.
  pose proof (alternates_last _ _ Ha) as HL. simpl other in HL. rewrite HL.
  now destruct (Nat.odd (List.length (emitted w))).
Qed.

(** ** Disconnecting *)

(** X13.  [disconnect] returns true exactly when the guild has a voice
    connection; afterwards the guild has none and, when it returned true,
    [currentConnection] is null; when it returns false it changes nothing.
    A second [disconnect] in a row returns false and changes nothing. *)
Theorem disconnect_then_disconnect (w : world) :
  let w1 := snd (disconnect w) in
  (fst (disconnect w) = true <-> voiceConnection w <> None)
  /\ voiceConnection w1 = None
  /\ (fst (disconnect w) = true -> currentConnection (this w1) = None)
  /\ (fst (disconnect w) = false -> w1 = w)
  /\ fst (disconnect w1) = false
  /\ snd (disconnect w1) = w1.
Proof.
  unfold disconnect. destruct (voiceConnection w) as [c | ] eqn:E; cbn.
  - repeat split; auto; discriminate.
  - rewrite E. repeat split; auto; try discriminate; congruence.
Qed.

(** X14.  In every state reached from the initial one, [currentConnection]
    is what the guild's registry holds: the connection [connect] returned
    until it is destroyed, and null from then on. *)
Theorem currentConnection_tracks_registry
  (c : VoiceConnection) (inputs : list input) :
  let w := run (initial c) inputs in
  currentConnection (this w) = voiceConnection w
  /\ (voiceConnection w = Some c \/ voiceConnection w = None).
Proof.
  intros w. subst w.
  assert (H : forall w0,
             currentConnection (this w0) = voiceConnection w0
             /\ (voiceConnection w0 = Some c \/ voiceConnection w0 = None) ->
             currentConnection (this (run w0 inputs))
             = voiceConnection (run w0 inputs)
             /\ (voiceConnection (run w0 inputs) = Some c
                 \/ voiceConnection (run w0 inputs) = None)).
  { induction inputs as [ | i rest IH]; intros w0 H0; [exact H0 | ].
    rewrite run_cons. apply IH. destruct H0 as [Hc Hv].
    assert (Hframe : forall l,
              currentConnection (this (processAudioLevel l w0))
              = currentConnection (this w0)
              /\ voiceConnection (processAudioLevel l w0) = voiceConnection w0).
    { intros l. destruct (frame_cases l w0) as [Hq | [[Hn Hcc] | [Hs Hcc]]].
      - rewrite (processAudioLevel_quiet l w0 Hq).
        now destruct (isSpeaking (this w0)), (silenceTimer (this w0)).
      - now rewrite (processAudioLevel_counting l w0 Hn Hcc).
      - rewrite (processAudioLevel_speech l w0 Hs Hcc).
        now destruct (isSpeaking (this w0)), (silenceTimer (this w0)). }
    destruct i as [u | u | u chunk | u | | | ms | t]; cbn [step].
    - auto.
    - auto.
    - unfold onData. destruct (calculateAudioLevel chunk) as [l | e]; [ | auto].
      destruct (Hframe l) as [-> ->]. auto.
    - auto.
    - cbn. auto.
    - unfold disconnect. destruct (voiceConnection w0) eqn:E; cbn;
        rewrite ?E; auto.
    - cbn. auto.
    - unfold onTimeout. destruct (timer_due t w0); cbn; auto. }
  apply H. cbn. auto.
Qed.

(** ** Connecting *)

Section Connect.

Variable env : environment.
Variable s : session.

Lemma connect_cases :
  (member_channel env = None
   /\ connect env s = (resolved None, say reply_not_in_channel s))
  \/ (member_channel env <> None /\ voiceConnection (state s) <> None
      /\ connect env s
         = (if reply_resolves env reply_already_connected
            then (resolved None, say reply_already_connected s)
            else connect_catch env (say reply_already_connected s)))
  \/ (member_channel env <> None /\ voiceConnection (state s) = None
      /\ becomes_ready env = false
      /\ connect env s
         = connect_catch env
             (mkSession
                (set_voiceConnection None
                   (set_voiceConnection (Some (joined env)) (state s)))
                (replies s)))
  \/ (member_channel env <> None /\ voiceConnection (state s) = None
      /\ becomes_ready env = true
      /\ connect env s
         = let w2 := set_currentConnection (Some (joined env))
                       (set_voiceConnection (Some (joined env)) (state s)) in
           if reply_resolves env reply_connected
           then (resolved (Some (joined env)),
                 mkSession w2 (replies s ++ [reply_connected]))
           else connect_catch env
                  (mkSession (destroy w2) (replies s ++ [reply_connected]))).
Proof.
  unfold connect, isUserInVoiceChannel.
  destruct (member_channel env) as [ch | ]; [ | now left]. right.
  cbn [negb].
  destruct (voiceConnection (state s)) as [c | ] eqn:E.
  - left. repeat split; congruence.
  - right. destruct (becomes_ready env); [right | left];
      repeat split; congruence.
Qed.

End Connect.


Section ConnectFailure.

Lemma connect_catch_state (env : environment) (s : session) :
  state (snd (connect_catch env s)) = state s
  /\ replies (snd (connect_catch env s)) = replies s ++ [reply_connect_error]
  /\ (fst (connect_catch env s) = rejected
      <-> reply_resolves env reply_connect_error = false)
  /\ (fst (connect_catch env s) = resolved None
      <-> reply_resolves env reply_connect_error = true).
Proof.
  unfold connect_catch. cbn.
  destruct (reply_resolves env reply_connect_error); repeat split;
    congruence.
Qed.

End ConnectFailure.



(** X17.  When the replies resolve, a call of [connect] replies exactly
    once, with the embed of the case it is in, and its promise resolves:
    with the joined connection after the success reply, with nothing after
    an error reply. *)
Theorem connect_replies_once (env : environment) (s : session) :
  (forall r, reply_resolves env r = true) ->
  replies (snd (connect env s)) = replies s ++ [first_reply env s]
  /\ fst (connect env s)
     = resolved (match first_reply env s with
                 | reply_connected => Some (joined env)
                 | _ => None
                 end).
Proof.
  intros Hres. unfold first_reply.
  destruct (connect_cases env s)
    as [[Hm E] | [(Hm & Hv & E) | [(Hm & Hv & Hr & E) | (Hm & Hv & Hr & E)]]];
    rewrite E; clear E.
  - rewrite Hm. now split.
  - rewrite Hres.
    destruct (member_channel env); [ | congruence].
    destruct (voiceConnection (state s)); [ | congruence]. now split.
  - unfold connect_catch. rewrite Hres, Hr, Hv.
    destruct (member_channel env); [ | congruence]. now split.
  - cbv zeta. rewrite Hres, Hr, Hv.
    destruct (member_channel env); [ | congruence]. now split.
Qed.

Lemma connect_replies_once_witness :
  let env := mkEnvironment None 1 true (fun _ => true) in
  let s := mkSession (constructed None) [] in
  replies (snd (connect env s)) = [] ++ [reply_not_in_channel]
  /\ fst (connect env s) = resolved None.
Proof.
  intros env s. apply (connect_replies_once env s). reflexivity.
Defined.



(** X19.  The promise of [connect] rejects in one way only: an awaited
    call fails (the reply that the bot is already connected, the wait for
    the ready state, or the success reply) and the error reply made in the
    [catch] does not resolve either.  A member outside every voice channel
    never makes it reject. *)
Theorem connect_rejects_iff (env : environment) (s : session) :
  fst (connect env s) = rejected
  <-> reply_resolves env reply_connect_error = false
      /\ member_channel env <> None
      /\ ((voiceConnection (state s) <> None
           /\ reply_resolves env reply_already_connected = false)
          \/ (voiceConnection (state s) = None
              /\ (becomes_ready env = false
                  \/ reply_resolves env reply_connected = false))).
Proof.
  destruct (connect_cases env s)
    as [[Hm E] | [(Hm & Hv & E) | [(Hm & Hv & Hr & E) | (Hm & Hv & Hr & E)]]];
    rewrite E; clear E.
  - cbn. split; [discriminate | intros (_ & H & _); congruence].
  - destruct (reply_resolves env reply_already_connected) eqn:Hy.
    + cbn. split; [discriminate | ].
      intros (_ & _ & [[_ H] | [H _]]); congruence.
    + destruct (connect_catch_state env (say reply_already_connected s))
        as (_ & _ & [H1 H2] & _).
      split; [intros H; apply H1 in H; auto | intros (H & _); auto].
  - match goal with
    | |- fst (connect_catch env ?x) = rejected <-> _ =>
        destruct (connect_catch_state env x) as (_ & _ & [H1 H2] & _)
    end.
    split; [intros H; apply H1 in H; auto 6 | intros (H & _); auto].
  - cbv zeta. destruct (reply_resolves env reply_connected) eqn:Hy.
    + cbn. split; [discriminate | ].
      intros (_ & _ & [[H _] | [_ [H | H]]]); congruence.
    + match goal with
      | |- fst (connect_catch env ?x) = rejected <-> _ =>
          destruct (connect_catch_state env x) as (_ & _ & [H1 H2] & _)
      end.
      split; [intros H; apply H1 in H; auto 6 | intros (H & _); auto].
Qed.

(** ** The ways a connection ends *)

Section Ended.

Lemma destroy_frame (l : number) (w : world) :
  destroy (processAudioLevel l w) = processAudioLevel l (destroy w).
Proof.
  destruct w as [[sp st cn cc] tm ck fr em vc].
  unfold processAudioLevel. cbn -[Nat.leb].
  destruct (JS.gt l NOISE_THRESHOLD).
  - destruct (JS.gt l SPEECH_THRESHOLD && (REQUIRED_NOISE_FRAMES <=? S cn));
      [ | reflexivity].
    destruct sp, st; reflexivity.
  - destruct sp, st; reflexivity.
Qed.

Lemma destroy_step (w : world) (i : input) :
  destroy (step w i) = step (destroy w) i.
Proof.
  destruct i as [u | u | u chunk | u | | | ms | t]; cbn [step];
    try reflexivity.
  - unfold onData. destruct (calculateAudioLevel chunk); [ | reflexivity].
    apply destroy_frame.
  - unfold disconnect. destruct (voiceConnection w); reflexivity.
  - unfold onTimeout.
    change (timer_due t (destroy w)) with (timer_due t w).
    destruct (timer_due t w); reflexivity.
Qed.

Lemma destroy_run (inputs : list input) : forall w,
  destroy (run w inputs) = run (destroy w) inputs.
Proof.
  induction inputs as [ | i rest IH]; intros w; [reflexivity | ].
  rewrite !run_cons, IH, destroy_step. reflexivity.
Qed.

End Ended.

(** X20.  A lost connection that does not recover within the 5 seconds, a
    call of [disconnect] in a guild with a connection, and the [Destroyed]
    status all leave the same world, with the registry and
    [currentConnection] empty, while a connection that recovers changes
    nothing.  Ending the connection commutes with every later input: the
    frames and timers that follow emit the same events and leave the same
    speech state as if the connection were alive. *)
Theorem connection_end_commutes (w : world) (inputs : list input) :
  onDisconnected false w = destroy w
  /\ onDisconnected true w = w
  /\ (voiceConnection w <> None -> snd (disconnect w) = destroy w)
  /\ run (destroy w) inputs = destroy (run w inputs)
  /\ emitted (run (destroy w) inputs) = emitted (run w inputs)
  /\ isCurrentlySpeaking (run (destroy w) inputs)
     = isCurrentlySpeaking (run w inputs)
  /\ timers (run (destroy w) inputs) = timers (run w inputs).
Proof.
  split; [reflexivity | ]. split; [reflexivity | ]. split.
  - intros H. unfold disconnect.
    destruct (voiceConnection w); [reflexivity | congruence].
  - rewrite <- destroy_run. repeat split.
Qed.

(** ** Handles and due times *)

Section TimerBounds.

Lemma Forall_filter_keep (A : Type) (P : A -> Prop) (f : A -> bool)
  (l : list A) : Forall P l -> Forall P (filter f l).
Proof.
  induction 1 as [ | a rest Ha _ IH]; simpl; [constructor | ].
  destruct (f a); [now constructor | exact IH].
Qed.

Lemma timers_bounded_frame (l : number) (w : world) :
  timers_bounded w -> timers_bounded (processAudioLevel l w).
Proof.
  unfold timers_bounded. intros H.
  destruct (frame_cases l w) as [Hq | [[Hn Hc] | [Hs Hc]]].
  - rewrite (processAudioLevel_quiet l w Hq).
    destruct (isSpeaking (this w)); [ | exact H].
    destruct (silenceTimer (this w)); [exact H | ]. cbn.
    apply Forall_app. split.
    + eapply Forall_impl; [ | exact H]. cbn. intros p [H1 H2]. lia.
    + repeat constructor; cbn; lia.
  - rewrite (processAudioLevel_counting l w Hn Hc). exact H.
  - rewrite (processAudioLevel_speech l w Hs Hc).
    destruct (isSpeaking (this w)), (silenceTimer (this w)); cbn;
      try exact H; now apply Forall_filter_keep.
Qed.

Lemma timers_bounded_step (w : world) (i : input) :
  timers_bounded w ->
  timers_bounded (step w i) /\ clock w <= clock (step w i)
  /\ fresh w <= fresh (step w i).
Proof.
  intros H.
  assert (Hframe : forall l,
            clock (processAudioLevel l w) = clock w
            /\ fresh w <= fresh (processAudioLevel l w)).
  { intros l. destruct (frame_cases l w) as [Hq | [[Hn Hc] | [Hs Hc]]].
    - rewrite (processAudioLevel_quiet l w Hq).
      destruct (isSpeaking (this w)), (silenceTimer (this w)); cbn; lia.
    - rewrite (processAudioLevel_counting l w Hn Hc). cbn. lia.
    - rewrite (processAudioLevel_speech l w Hs Hc).
      destruct (isSpeaking (this w)), (silenceTimer (this w)); cbn; lia. }
  destruct i as [u | u | u chunk | u | | | ms | t]; cbn [step].
  - auto.
  - auto.
  - unfold onData. destruct (calculateAudioLevel chunk) as [l | e]; [ | auto].
    destruct (Hframe l) as [Hc Hf]. rewrite Hc.
    split; [now apply timers_bounded_frame | auto].
  - auto.
  - auto.
  - unfold disconnect. destruct (voiceConnection w); auto.
  - unfold timers_bounded in *. cbn. split; [ | lia].
    eapply Forall_impl; [ | exact H]. cbn. intros p [H1 H2]. lia.
  - unfold onTimeout. destruct (timer_due t w); [ | auto].
    unfold timers_bounded in *. cbn. split; [ | lia].
    now apply Forall_filter_keep.
Qed.

Lemma timers_bounded_run (inputs : list input) : forall w,
  timers_bounded w ->
  timers_bounded (run w inputs) /\ clock w <= clock (run w inputs)
  /\ fresh w <= fresh (run w inputs).
Proof.
  induction inputs as [ | i rest IH]; intros w H.
  - rewrite run_nil. auto.
  - rewrite run_cons. destruct (timers_bounded_step w i H) as (H1 & H2 & H3).
    destruct (IH _ H1) as (H4 & H5 & H6). repeat split; [exact H4 | lia | lia].
Qed.

End TimerBounds.

(** X21.  Along every run the clock and the next handle never decrease,
    and in every state reached from the initial one each pending timer has
    a handle below the next one to be handed out (so [setTimeout] never
    returns a handle that is still pending) and is due at most
    [SILENCE_THRESHOLD] ms from now. *)
Theorem pending_timers_bounded
  (c : VoiceConnection) (before after : list input) :
  let w := run (initial c) before in
  let w' := run w after in
  timers_bounded w
  /\ clock w <= clock w' /\ fresh w <= fresh w'.
Proof.
  intros w w'.
  destruct (timers_bounded_run before (initial c)) as (H & _ & _);
    [constructor | ].
  fold w in H. split; [exact H | ].
  now destruct (timers_bounded_run after w H) as (_ & H1 & H2).
Qed.

(** ** Cancellation is final *)

Section Cancelled.

Variable t : Timeout.

Lemma retired_frame (l : number) (w : world) :
  retired t w -> retired t (processAudioLevel l w).
Proof.
  unfold retired. intros [Hf Ht].
  destruct (frame_cases l w) as [Hq | [[Hn Hc] | [Hs Hc]]].
  - rewrite (processAudioLevel_quiet l w Hq).
    destruct (isSpeaking (this w)); [ | auto].
    destruct (silenceTimer (this w)); [auto | ]. cbn.
    split; [lia | ]. apply Forall_app. split; [exact Ht | ].
    repeat constructor. cbn. lia.
  - rewrite (processAudioLevel_counting l w Hn Hc). auto.
  - rewrite (processAudioLevel_speech l w Hs Hc).
    destruct (isSpeaking (this w)), (silenceTimer (this w)); cbn;
      auto using Forall_filter_keep.
Qed.

Lemma retired_idle_timer (w : world) :
  retired t w -> step w (timer_fires t) = w.
Proof.
  unfold retired. intros [_ Ht]. cbn [step]. unfold onTimeout, timer_due.
  replace (existsb _ (timers w)) with false; [reflexivity | ].
  symmetry. induction Ht as [ | p rest Hp _ IH]; [reflexivity | ].
  cbn. rewrite IH, orb_false_r.
  apply andb_false_intro1, Nat.eqb_neq. exact Hp.
Qed.

Lemma retired_step (w : world) (i : input) : retired t w -> retired t (step w i).
Proof.
  intros H. destruct i as [u | u | u chunk | u | | | ms | t'];
    cbn [step]; auto.
  - unfold onData. destruct (calculateAudioLevel chunk); auto.
    now apply retired_frame.
  - unfold disconnect. destruct (voiceConnection w); auto.
  - unfold onTimeout. destruct (timer_due t' w); [ | auto].
    destruct H as [Hf Ht]. split; cbn; auto using Forall_filter_keep.
Qed.

Lemma retired_run (inputs : list input) : forall w,
  retired t w -> retired t (run w inputs).
Proof.
  induction inputs as [ | i rest IH]; intros w H; [exact H | ].
  rewrite run_cons. now apply IH, retired_step.
Qed.

End Cancelled.

(** X22.  Cancellation is final: once a frame has cancelled the countdown,
    the expiry of the cancelled timer does nothing, whatever happens in
    between and however many countdowns have been started since; its handle
    is never handed out again. *)
Theorem cancelled_timer_never_fires
  (w : world) (l : number) (t : Timeout) (inputs : list input) :
  reachable w -> silenceTimer (this w) = Some t ->
  JS.gt l SPEECH_THRESHOLD = true ->
  REQUIRED_NOISE_FRAMES <= S (consecutiveNoiseFrames (this w)) ->
  let w' := run (processAudioLevel l w) inputs in
  step w' (timer_fires t) = w'.
Proof.
  intros Hr Ht Hs Hc w'. subst w'.
  apply retired_idle_timer, retired_run.
  destruct (inv_reachable w Hr) as [Hti _]. unfold timer_inv in Hti.
  rewrite Ht in Hti. destruct Hti as [Hsp [due Htm]].
  assert (Hb : timers_bounded w).
  { destruct Hr as (c & ins & ->).
    now destruct (timers_bounded_run ins (initial c)) as (H & _);
      [constructor | ]. }
  unfold timers_bounded in Hb. rewrite Htm in Hb.
  inversion Hb as [ | ? ? [Hlt _] _]; subst. cbn in Hlt.
  rewrite (processAudioLevel_speech l w Hs Hc), Ht, Hsp. unfold retired. cbn.
  rewrite Htm, filter_single. split; [exact Hlt | constructor].
Qed.

Lemma cancelled_timer_never_fires_witness :
  let w' := run (processAudioLevel (Fin (-30)) countdown_two_frames_in)
              [stream_data "a"%string silent_chunk; elapse 600] in
  step w' (timer_fires 0) = w'.
Proof.
  apply (cancelled_timer_never_fires countdown_two_frames_in (Fin (-30)) 0
           [stream_data "a"%string silent_chunk; elapse 600]).
  - exists 0. eexists. apply countdown_two_frames_in_reachable.
  - reflexivity.
  - js_cmp.
  - unfold REQUIRED_NOISE_FRAMES. simpl. lia.
Defined.

(** ** The level and the length of the frame *)

(** In exact arithmetic two non-empty lists of samples with the same mean
    square have the same level. *)
Lemma level_of_samples_mean_square (samples1 samples2 : list Z) :
  samples1 <> [] -> samples2 <> [] ->
  (sum_squares samples1 * Z.of_nat (List.length samples2)
   = sum_squares samples2 * Z.of_nat (List.length samples1))%Z ->
  level_of_samples samples1 = level_of_samples samples2.
Proof.
  intros Hne1 Hne2 E.
  pose proof (sum_squares_nonneg samples1) as Hs1.
  pose proof (sum_squares_nonneg samples2) as Hs2.
  assert (Hn1 : (0 < Z.of_nat (List.length samples1))%Z)
    by (destruct samples1; [easy | simpl List.length; lia]).
  assert (Hn2 : (0 < Z.of_nat (List.length samples2))%Z)
    by (destruct samples2; [easy | simpl List.length; lia]).
  assert (C : sum_squares samples1 = 0%Z \/ (0 < sum_squares samples1)%Z)
    by lia.
  destruct C as [Z1 | P1].
  - assert (Z2 : sum_squares samples2 = 0%Z) by nia.
    now rewrite (level_of_silence _ Hne1 Z1), (level_of_silence _ Hne2 Z2).
  - assert (P2 : (0 < sum_squares samples2)%Z) by nia.
    rewrite (level_of_sound _ Hne1 P1), (level_of_sound _ Hne2 P2).
    apply IZR_lt in Hn1, Hn2. apply (f_equal IZR) in E.
    rewrite !mult_IZR in E.
    assert (Q : (IZR (sum_squares samples1)
                 / IZR (Z.of_nat (List.length samples1))
                 = IZR (sum_squares samples2)
                   / IZR (Z.of_nat (List.length samples2)))%R).
    { apply Rmult_eq_reg_r
        with (r := (IZR (Z.of_nat (List.length samples1))
                    * IZR (Z.of_nat (List.length samples2)))%R);
        [ | apply Rgt_not_eq, Rmult_lt_0_compat; assumption].
      field_simplify; lra. }
    now rewrite Q.
Qed.

(** ** Starts and frames *)

Section Accounting.

Lemma count_snoc (e x : event) (log : list event) :
  count e (log ++ [x]) = count e log + (if event_eqb e x then 1 else 0).
Proof.
  unfold count. rewrite filter_app, length_app. simpl.
  now destruct (event_eqb e x).
Qed.

Lemma accounted_frame (l : number) (w : world) :
  frames_accounted (processAudioLevel l w)
  <= frames_accounted w + (if JS.gt l NOISE_THRESHOLD then 1 else 0).
Proof.
  unfold frames_accounted.
  destruct (frame_cases l w) as [Hq | [[Hn Hc] | [Hs Hc]]].
  - rewrite (processAudioLevel_quiet l w Hq), Hq.
    destruct (isSpeaking (this w)) eqn:Hsp.
    + destruct (silenceTimer (this w)); cbn -[count Nat.mul]; rewrite ?Hsp; lia.
    + cbn -[count Nat.mul]. rewrite Hsp. lia.
  - rewrite (processAudioLevel_counting l w Hn Hc), Hn. cbn -[count Nat.mul].
    destruct (isSpeaking (this w)); lia.
  - rewrite (processAudioLevel_speech l w Hs Hc), (gt_speech_gt_noise _ Hs).
    unfold REQUIRED_NOISE_FRAMES in Hc.
    destruct (isSpeaking (this w)) eqn:Hsp.
    + destruct (silenceTimer (this w)); cbn -[count Nat.mul]; rewrite ?Hsp; lia.
    + destruct (silenceTimer (this w)); cbn -[count Nat.mul]; rewrite count_snoc; cbn -[count Nat.mul]; lia.
Qed.

Lemma accounted_step (w : world) (i : input) :
  frames_accounted (step w i)
  <= frames_accounted w + (if quiet_input i then 0 else 1).
Proof.
  destruct i as [u | u | u chunk | u | | | ms | t]; cbn [step quiet_input].
  - lia.
  - lia.
  - unfold onData. destruct (calculateAudioLevel chunk) as [l | e]; [ | lia].
    pose proof (accounted_frame l w) as H.
    destruct (JS.gt l NOISE_THRESHOLD); exact H.
  - lia.
  - unfold frames_accounted. cbn -[count Nat.mul]. lia.
  - unfold disconnect, frames_accounted.
    destruct (voiceConnection w); cbn -[count Nat.mul]; lia.
  - unfold frames_accounted. cbn -[count Nat.mul]. lia.
  - unfold onTimeout. destruct (timer_due t w); [ | lia].
    unfold frames_accounted. cbn -[count Nat.mul]. rewrite count_snoc.
    cbn -[count Nat.mul]. destruct (isSpeaking (this w)); lia.
Qed.

Lemma accounted_run (inputs : list input) : forall w,
  frames_accounted (run w inputs) <= frames_accounted w + loud_frames inputs.
Proof.
  unfold loud_frames.
  induction inputs as [ | i rest IH]; intros w.
  - rewrite run_nil. simpl. lia.
  - rewrite run_cons. specialize (IH (step w i)).
    pose proof (accounted_step w i) as H. cbn [filter].
    destruct (quiet_input i); cbn [negb List.length]; lia.
Qed.

End Accounting.

(** At most one [realSpeechStart] per three listener calls above the noise
    floor. *)
Lemma starts_need_three_calls (c : VoiceConnection) (inputs : list input) :
  3 * count realSpeechStart (emitted (run (initial c) inputs))
  <= loud_frames inputs.
Proof.
  pose proof (accounted_run inputs (initial c)) as H.
  unfold frames_accounted in H. cbn [initial emitted this isSpeaking
    consecutiveNoiseFrames] in H.
  change (count realSpeechStart []) with 0 in H. lia.
Qed.

(** ** The chunk and its [ArrayBuffer] *)

(** X1.  [calculateAudioLevel] throws, and then a [RangeError], exactly
    when the [ArrayBuffer] behind the chunk has an odd byte length, whatever
    the offset and the length of the chunk itself. *)
Theorem meter_throws_iff_odd (chunk : Chunk.t) :
  (exists e, Chunk.calculateAudioLevel chunk = Throw e)
  <-> Nat.odd (List.length (Chunk.buffer chunk)) = true.
Proof. exact (throws_iff_odd_content (Chunk.buffer chunk)). Qed.

(** X2.  The level is NaN exactly when the [ArrayBuffer] behind the chunk
    is empty; a chunk of zero bytes that shares a non-empty [ArrayBuffer]
    does not give NaN. *)
Theorem level_NaN_iff_empty (chunk : Chunk.t) :
  (Chunk.calculateAudioLevel chunk = Ret NaN <-> Chunk.buffer chunk = [])
  /\ (Chunk.whole chunk ->
      (Chunk.calculateAudioLevel chunk = Ret NaN <-> Chunk.length chunk = 0)).
Proof.
  pose proof (NaN_iff_empty_content (Chunk.buffer chunk)) as H.
  split; [exact H | ]. intros Hw.
  unfold Chunk.calculateAudioLevel. rewrite H.
  rewrite <- (whole_length chunk Hw).
  destruct (Chunk.buffer chunk); split; intros E; try reflexivity;
    discriminate.
Qed.

(** X3.  The level is [-Infinity] exactly when the [ArrayBuffer] behind the
    chunk is non-empty, of even length and all zero: a silent chunk is
    measured as silent when the rest of its [ArrayBuffer] is silent too. *)
Theorem level_NegInf_iff_silent (chunk : Chunk.t) :
  Chunk.calculateAudioLevel chunk = Ret NegInf
  <-> Chunk.buffer chunk <> []
      /\ Nat.odd (List.length (Chunk.buffer chunk)) = false
      /\ Forall (fun b => b = x00) (Chunk.buffer chunk).
Proof. exact (NegInf_iff_zero_content (Chunk.buffer chunk)). Qed.

(** ** The thresholds, with a margin *)

Section Margins.

Lemma measured_samples (chunk : Chunk.t) (samples : list Z) :
  Int16Array (Chunk.buffer chunk) = Ret samples ->
  Chunk.calculateAudioLevel chunk = Ret (level_of_samples samples).
Proof.
  intros E. unfold Chunk.calculateAudioLevel, calculateAudioLevel.
  now rewrite E.
Qed.

End Margins.

(** X5.  For a chunk whose [ArrayBuffer] holds at least one and fewer than
    2^23 samples, with sum of squares S and N samples: when 10^5 S is at
    least 2^30 N by one part in a million, the level exceeds
    [NOISE_THRESHOLD]; when it is at most 2^30 N by one part in a million,
    the level does not. *)
Theorem noise_test_in_integers (chunk : Chunk.t) (samples : list Z) :
  Int16Array (Chunk.buffer chunk) = Ret samples -> samples <> [] ->
  (Z.of_nat (List.length samples) < exact_sum_limit)%Z ->
  exists l,
    Chunk.calculateAudioLevel chunk = Ret l
    /\ ((1000001 * (2 ^ 30 * Z.of_nat (List.length samples))
         <= 1000000 * (10 ^ 5 * sum_squares samples))%Z ->
        JS.gt l NOISE_THRESHOLD = true)
    /\ ((1000001 * (10 ^ 5 * sum_squares samples)
         <= 1000000 * (2 ^ 30 * Z.of_nat (List.length samples)))%Z ->
        JS.gt l NOISE_THRESHOLD = false).
Proof.
  intros E Hne _. exists (level_of_samples samples).
  split; [now apply measured_samples | ].
  rewrite above_noise_exact. unfold above_noise.
  pose proof (sum_squares_nonneg samples) as Hs.
  assert (Hn : (0 < Z.of_nat (List.length samples))%Z)
    by (destruct samples; [easy | simpl List.length; lia]).
  change (2 ^ 30)%Z with 1073741824%Z. change (10 ^ 5)%Z with 100000%Z.
  split; intros H; [apply Z.ltb_lt | apply Z.ltb_ge]; lia.
Qed.

Lemma noise_test_in_integers_witness :
  exists l,
    Chunk.calculateAudioLevel (Chunk.of_bytes loud_chunk) = Ret l
    /\ ((1000001 * (2 ^ 30 * Z.of_nat (List.length [(-32768)%Z]))
         <= 1000000 * (10 ^ 5 * sum_squares [(-32768)%Z]))%Z ->
        JS.gt l NOISE_THRESHOLD = true)
    /\ ((1000001 * (10 ^ 5 * sum_squares [(-32768)%Z])
         <= 1000000 * (2 ^ 30 * Z.of_nat (List.length [(-32768)%Z])))%Z ->
        JS.gt l NOISE_THRESHOLD = false).
Proof.
  apply (noise_test_in_integers (Chunk.of_bytes loud_chunk) [(-32768)%Z]);
    [reflexivity | discriminate | reflexivity].
Defined.

(** X6.  In the same way for [SPEECH_THRESHOLD]: when 10^7 S^2 is at least
    2^60 N^2 by one part in a million the level exceeds it, and when it is
    at most 2^60 N^2 by one part in a million the level does not. *)
Theorem speech_test_in_integers (chunk : Chunk.t) (samples : list Z) :
  Int16Array (Chunk.buffer chunk) = Ret samples -> samples <> [] ->
  (Z.of_nat (List.length samples) < exact_sum_limit)%Z ->
  exists l,
    Chunk.calculateAudioLevel chunk = Ret l
    /\ ((1000001 * (2 ^ 60 * Z.of_nat (List.length samples) ^ 2)
         <= 1000000 * (10 ^ 7 * sum_squares samples ^ 2))%Z ->
        JS.gt l SPEECH_THRESHOLD = true)
    /\ ((1000001 * (10 ^ 7 * sum_squares samples ^ 2)
         <= 1000000 * (2 ^ 60 * Z.of_nat (List.length samples) ^ 2))%Z ->
        JS.gt l SPEECH_THRESHOLD = false).
Proof.
  intros E Hne _. exists (level_of_samples samples).
  split; [now apply measured_samples | ].
  rewrite above_speech_exact. unfold above_speech.
  pose proof (sum_squares_nonneg samples) as Hs.
  assert (Hn : (0 < Z.of_nat (List.length samples))%Z)
    by (destruct samples; [easy | simpl List.length; lia]).
  assert (Hn2 : (0 < Z.of_nat (List.length samples) ^ 2)%Z) by nia.
  assert (Hs2 : (0 <= sum_squares samples ^ 2)%Z) by nia.
  change (2 ^ 60)%Z with 1152921504606846976%Z.
  change (10 ^ 7)%Z with 10000000%Z.
  split; intros H; [apply Z.ltb_lt | apply Z.ltb_ge]; lia.
Qed.

Lemma speech_test_in_integers_witness :
  exists l,
    Chunk.calculateAudioLevel (Chunk.of_bytes loud_chunk) = Ret l
    /\ ((1000001 * (2 ^ 60 * Z.of_nat (List.length [(-32768)%Z]) ^ 2)
         <= 1000000 * (10 ^ 7 * sum_squares [(-32768)%Z] ^ 2))%Z ->
        JS.gt l SPEECH_THRESHOLD = true)
    /\ ((1000001 * (10 ^ 7 * sum_squares [(-32768)%Z] ^ 2)
         <= 1000000 * (2 ^ 60 * Z.of_nat (List.length [(-32768)%Z]) ^ 2))%Z ->
        JS.gt l SPEECH_THRESHOLD = false).
Proof.
  apply (speech_test_in_integers (Chunk.of_bytes loud_chunk) [(-32768)%Z]);
    [reflexivity | discriminate | reflexivity].
Defined.

(** X23.  For chunks whose [ArrayBuffer] holds fewer than 2^23 samples, the
    level depends on the mean square of those samples only, not on how
    many there are or on their order: two such chunks with the same mean
    square have the same level. *)
Theorem level_depends_on_mean_square
  (chunk1 chunk2 : Chunk.t) (samples1 samples2 : list Z) :
  Int16Array (Chunk.buffer chunk1) = Ret samples1 ->
  Int16Array (Chunk.buffer chunk2) = Ret samples2 ->
  samples1 <> [] -> samples2 <> [] ->
  (Z.of_nat (List.length samples1) < exact_sum_limit)%Z ->
  (Z.of_nat (List.length samples2) < exact_sum_limit)%Z ->
  (sum_squares samples1 * Z.of_nat (List.length samples2)
   = sum_squares samples2 * Z.of_nat (List.length samples1))%Z ->
  Chunk.calculateAudioLevel chunk1 = Chunk.calculateAudioLevel chunk2.
Proof.
  intros E1 E2 Hne1 Hne2 _ _ E.
  rewrite (measured_samples chunk1 samples1 E1).
  rewrite (measured_samples chunk2 samples2 E2).
  f_equal. now apply level_of_samples_mean_square.
Qed.

Lemma level_depends_on_mean_square_witness :
  Chunk.calculateAudioLevel
    (Chunk.of_bytes [x03; x00; xfd; xff; x03; x00; x03; x00])
  = Chunk.calculateAudioLevel (Chunk.mk [x03; x00] 0 0).
Proof.
  apply (level_depends_on_mean_square
           (Chunk.of_bytes [x03; x00; xfd; xff; x03; x00; x03; x00])
           (Chunk.mk [x03; x00] 0 0) [3; -3; 3; 3]%Z [3]%Z);
    try reflexivity; discriminate.
Defined.

(** X24.  Every [realSpeechStart] is paid for by three listener calls above
    the noise floor of its own: whatever the connection and the streams
    emit, the handler emits at most one [realSpeechStart] per three such
    calls, a chunk counting once for each ['data'] listener attached to its
    stream. *)
Theorem starts_need_three_frames (c : VoiceConnection) (es : list emission) :
  3 * count realSpeechStart
        (emitted (handling (receive_all (connected c) es)))
  <= loud_frames (trace (connected c) es).
Proof.
  rewrite receive_all_trace.
  exact (starts_need_three_calls c (trace (connected c) es)).
Qed.

(** ** One call per listener *)

Section Listeners.

Lemma listeners_after (es : list emission) : forall r stream,
  dataListeners (receive_all r es) stream
  = dataListeners r stream + List.length (filter (subscribes stream) es).
Proof.
  induction es as [ | e rest IH]; intros r stream.
  - simpl. lia.
  - rewrite receive_all_cons, IH. cbn [filter].
    destruct e; cbn [receive dataListeners subscribes]; try lia.
    rewrite (Nat.eqb_sym stream0 stream).
    destruct (stream =? stream0); cbn [List.length]; lia.
Qed.

Lemma run_repeat_data (u : userId) (content : list byte) (l : number)
  (n : nat) : forall w,
  calculateAudioLevel content = Ret l ->
  run w (repeat (stream_data u content) n) = frames (repeat l n) w.
Proof.
  induction n as [ | n IH]; intros w E; [reflexivity | ].
  cbn [repeat]. rewrite run_cons, frames_cons, <- (IH _ E).
  f_equal. cbn [step]. unfold onData. now rewrite E.
Qed.

End Listeners.

(** X25.  A chunk is measured and processed once for every ['data']
    listener of its stream, and [handleAudioStream] has attached one for
    every ['start'] for which [subscribe] returned that stream: after [k]
    of them, a chunk of level [l] acts as [k] frames of level [l] in a row,
    and a chunk of a stream never subscribed is not processed. *)
Theorem chunk_processed_once_per_start
  (c : VoiceConnection) (es : list emission) (u : userId)
  (stream : AudioReceiveStream) (chunk : Chunk.t) (l : number) :
  Chunk.calculateAudioLevel chunk = Ret l ->
  let r := receive_all (connected c) es in
  let k := List.length (filter (subscribes stream) es) in
  dataListeners r stream = k
  /\ handling (receive r (on_data u stream chunk))
     = frames (repeat l k) (handling r).
Proof.
  intros E r k.
  assert (Hk : dataListeners r stream = k)
    by (unfold r, k; now rewrite listeners_after).
  split; [exact Hk | ].
  cbn [receive handling callbacks]. rewrite Hk.
  now apply run_repeat_data.
Qed.

Lemma chunk_processed_once_per_start_witness :
  let es := [on_start "a"%string 1; on_start "a"%string 1] in
  let r := receive_all (connected 0) es in
  dataListeners r 1 = 2
  /\ handling (receive r (on_data "a"%string 1 (Chunk.of_bytes loud_chunk)))
     = frames (repeat (Fin 0) 2) (handling r).
Proof.
  intros es.
  apply (chunk_processed_once_per_start 0 es "a"%string 1
           (Chunk.of_bytes loud_chunk) (Fin 0)).
  apply level_of_loud_chunk.
Defined.
